(** * go-diameter: header codec, command multiplexer and connection loop

    A shallow embedding of [diam/header.go] and of the diameter server
    (connection endpoint, [ServeMux], write path), with the properties of
    the design document proved over it.

    Conventions.
    - A Go [uintN] is a [Z] in [[0, 2^N)]; conversions and bit operations
      are written with [Z.land], [Z.lor], [Z.shiftl], [Z.shiftr].
    - A Go result pair [(T, error)] is a Rocq pair of options: [None] is
      [nil].
    - A Go [map[K]V] is a stdpp [gmap K V].
    - Mutable objects reached through pointers ([*ServeMux]) live in a
      store indexed by address; methods take the address as receiver.
    - Calls that leave the package (a user handler, the socket, the logger)
      are recorded, in order, in an event trace.
    - User code runs in the process of the server and may do anything to
      its state: the dispatch and the connection loop are written over
      any behaviour of user code ([UserCode]), and [recorded] is the
      behaviour of which only the calls and how they end are kept.  A
      [*ServeMux] used as a handler is not user code: its dispatch is
      run. *)

From Stdlib Require Import ZArith Lia.
From stdpp Require Import base option list gmap strings pretty.

Local Open Scope Z_scope.

(* ===================================================================== *)
(** * Go runtime vocabulary shared by both files *)
(* ===================================================================== *)

(** Go [error] values.  [io.EOF] and [io.ErrUnexpectedEOF] are sentinels
    compared by identity; [errors.New] and [fmt.Errorf] yield an error
    carrying its text; [opError] stands for a fault raised by the network
    or by the message codec. *)
Inductive error : Type :=
  | io_EOF
  | io_ErrUnexpectedEOF
  | errorString (s : string)
  | opError (s : string).

#[global] Instance error_eq_dec : EqDecision error.
Proof. solve_decision. Defined.

Definition errors_New (s : string) : error := errorString s.

(** [fmt.Errorf(prefix + "%d", v)]: the only format used by the package. *)
Definition fmt_Errorf_d (prefix : string) (v : Z) : error :=
  errorString (prefix +:+ pretty v).

(** An [io.Reader] over a finite stream: the bytes still to be delivered
    and the error reported once they are exhausted ([io_EOF] for an
    orderly end of stream). *)
Record Reader : Type := mkReader {
  pending : list Z;
  final : error
}.

(** [io.ReadFull(r, buf)] with [len(buf) = n]: either [n] bytes, or the
    error of [io.ReadAtLeast]: [io.EOF] when nothing was read,
    [io.ErrUnexpectedEOF] when the stream ended part-way, and the reader's
    own error otherwise. *)
Definition io_ReadFull (n : nat) (r : Reader) : list Z * option error * Reader :=
  if decide (n ≤ length (pending r))%nat then
    (take n (pending r), None, mkReader (drop n (pending r)) (final r))
  else
    let err :=
      match final r, pending r with
      | io_EOF, _ :: _ => io_ErrUnexpectedEOF
      | e, _ => e
      end in
    (pending r, Some err, mkReader [] (final r)).

(** [binary.BigEndian.Uint32] and [binary.BigEndian.PutUint32]. *)
Definition byte_of (v : Z) : Z := Z.land v 255.

Definition BigEndian_Uint32 (b0 b1 b2 b3 : Z) : Z :=
  Z.lor (Z.lor (Z.lor b3 (Z.shiftl b2 8)) (Z.shiftl b1 16)) (Z.shiftl b0 24).

Definition BigEndian_PutUint32 (v : Z) : list Z :=
  [ byte_of (Z.shiftr v 24); byte_of (Z.shiftr v 16);
    byte_of (Z.shiftr v 8); byte_of v ].

Definition is_uint8 (v : Z) : Prop := 0 ≤ v < 256.
Definition is_uint32 (v : Z) : Prop := 0 ≤ v < 2 ^ 32.
Definition uint32_wrap (v : Z) : Z := v mod 2 ^ 32.

(** Size of a Go struct from the (size, alignment) of its fields: every
    field is placed at the next multiple of its alignment and the total is
    rounded up to the largest alignment. *)
Definition align_up (off a : Z) : Z := (off + a - 1) / a * a.

Fixpoint struct_layout (fields : list (Z * Z)) (off amax : Z) : Z :=
  match fields with
  | [] => align_up off amax
  | (sz, a) :: rest => struct_layout rest (align_up off a + sz) (Z.max amax a)
  end.

Definition unsafe_Sizeof (fields : list (Z * Z)) : Z := struct_layout fields 0 1.

(** [binary.Size]: the encoded size is the sum of the field sizes, with no
    padding. *)
Definition binary_Size (fields : list (Z * Z)) : Z :=
  foldr (λ f acc, f.1 + acc) 0 fields.

(* ===================================================================== *)
(** * header.go *)
(* ===================================================================== *)

Module Hdr.

(** [[3]uint8] *)
Definition uint24 : Type := (Z * Z * Z)%type.

Record Header : Type := mkHeader {
  Version : Z;
  RawMessageLength : uint24;
  CommandFlags : Z;
  RawCommandCode : uint24;
  ApplicationId : Z;
  HopByHopId : Z;
  EndToEndId : Z
}.

Definition is_uint24 (b : uint24) : Prop :=
  let '(b0, b1, b2) := b in is_uint8 b0 ∧ is_uint8 b1 ∧ is_uint8 b2.

(** The values a Go [Header] can hold. *)
Record wf_Header (h : Header) : Prop := {
  wf_Version : is_uint8 (Version h);
  wf_RawMessageLength : is_uint24 (RawMessageLength h);
  wf_CommandFlags : is_uint8 (CommandFlags h);
  wf_RawCommandCode : is_uint24 (RawCommandCode h);
  wf_ApplicationId : is_uint32 (ApplicationId h);
  wf_HopByHopId : is_uint32 (HopByHopId h);
  wf_EndToEndId : is_uint32 (EndToEndId h)
}.

(** Field sizes and alignments of [Header], in declaration order. *)
Definition Header_fields : list (Z * Z) :=
  [ (1, 1); (3, 1); (1, 1); (3, 1); (4, 4); (4, 4); (4, 4) ].

(** Modelled from the spec: the helper [uint24To32] is defined outside
    header.go; the length and the command code are "24-bit unsigned,
    big-endian" fields, so the three bytes are read most significant
    first. *)
Definition uint24To32 (b : uint24) : Z :=
  let '(b0, b1, b2) := b in
  Z.lor (Z.lor (Z.shiftl b0 16) (Z.shiftl b1 8)) b2.

(** Modelled from the spec: the helper [uint32To24] is defined outside
    header.go; it stores the low 24 bits of its argument "24-bit unsigned,
    big-endian". *)
Definition uint32To24 (n : Z) : uint24 :=
  (byte_of (Z.shiftr n 16), byte_of (Z.shiftr n 8), byte_of n).

(** [new(Header)]: every field is zero. *)
Definition new_Header : Header :=
  {| Version := 0; RawMessageLength := (0, 0, 0); CommandFlags := 0;
     RawCommandCode := (0, 0, 0); ApplicationId := 0; HopByHopId := 0;
     EndToEndId := 0 |}.

(** The decoding step of [binary.Read] for a [*Header]: the fields are
    filled in declaration order, integers big-endian. *)
Definition decode_Header (bs : list Z) : Header :=
  let b (i : nat) := nth i bs 0 in
  {| Version := b 0%nat;
     RawMessageLength := (b 1%nat, b 2%nat, b 3%nat);
     CommandFlags := b 4%nat;
     RawCommandCode := (b 5%nat, b 6%nat, b 7%nat);
     ApplicationId := BigEndian_Uint32 (b 8%nat) (b 9%nat) (b 10%nat) (b 11%nat);
     HopByHopId := BigEndian_Uint32 (b 12%nat) (b 13%nat) (b 14%nat) (b 15%nat);
     EndToEndId := BigEndian_Uint32 (b 16%nat) (b 17%nat) (b 18%nat) (b 19%nat) |}.

(** [binary.Read(r, binary.BigEndian, hdr)]: [binary.Size(hdr)] bytes are
    read with [io.ReadFull]; on an error [hdr] is left as it was. *)
Definition binary_Read (r : Reader) (hdr : Header) : Header * option error * Reader :=
  let '(bs, err, r') := io_ReadFull (Z.to_nat (binary_Size Header_fields)) r in
  match err with
  | Some e => (hdr, Some e, r')
  | None => (decode_Header bs, None, r')
  end.

(** ReadHeader reads one diameter header from the connection and returns
    it. *)
Definition ReadHeader (r : Reader) : option Header * option error * Reader :=
  let hdr := new_Header in
  let '(hdr, err, r') := binary_Read r hdr in
  match err with
  | Some e => (None, Some e, r')
  | None =>
      if decide (Version hdr ≠ byte_of 1) then
        (None, Some (fmt_Errorf_d "Invalid diameter version " (Version hdr)), r')
      else (Some hdr, None, r')
  end.

(** An error of version kind: the one [ReadHeader] builds for a version
    byte [v]. *)
Definition VersionError (v : Z) : error :=
  fmt_Errorf_d "Invalid diameter version " v.

Definition is_VersionError (err : option error) : Prop :=
  ∃ v, err = Some (VersionError v).

(** Modelled from the spec: the encoder is defined outside header.go.
    "Encode writes the 20-byte representation": the wire header table
    gives version at offset 0, messageLength at 1..3, commandFlags at 4,
    commandCode at 5..7 and the three identifiers at 8, 12 and 16, all
    big-endian. *)
Definition Encode (h : Header) : list Z :=
  let '(l0, l1, l2) := RawMessageLength h in
  let '(c0, c1, c2) := RawCommandCode h in
  [ Version h; l0; l1; l2; CommandFlags h; c0; c1; c2 ]
  ++ BigEndian_PutUint32 (ApplicationId h)
  ++ BigEndian_PutUint32 (HopByHopId h)
  ++ BigEndian_PutUint32 (EndToEndId h).

(** MessageLength returns the RawMessageLength as an integer. *)
Definition MessageLength (hdr : Header) : Z := uint24To32 (RawMessageLength hdr).

(** SetMessageLength updates RawMessageLength. *)
Definition SetMessageLength (length : Z) (hdr : Header) : Header :=
  {| Version := Version hdr;
     RawMessageLength :=
       uint32To24 (uint32_wrap (uint32_wrap (unsafe_Sizeof Header_fields) + length));
     CommandFlags := CommandFlags hdr;
     RawCommandCode := RawCommandCode hdr;
     ApplicationId := ApplicationId hdr;
     HopByHopId := HopByHopId hdr;
     EndToEndId := EndToEndId hdr |}.

(** CommandCode returns the RawCommandCode as an integer. *)
Definition CommandCode (hdr : Header) : Z := uint24To32 (RawCommandCode hdr).

Record Command : Type := mkCommand {
  Name : string;
  Abbrev : string
}.

Definition commandCodes : gmap Z Command :=
  list_to_map
    [ (274, mkCommand "Abbort-Session" "AS");
      (271, mkCommand "Accounting" "AC");
      (257, mkCommand "Capabilities-Exchange" "CE");
      (280, mkCommand "Device-Watchdog" "DW");
      (282, mkCommand "Disconnect-Peer" "DP");
      (258, mkCommand "Re-Auth" "RA");
      (275, mkCommand "Session-Termination" "ST") ].

(** CommandName returns the name of the command based on its code. *)
Definition CommandName (hdr : Header) : Command :=
  let '(nameSuffix, abbrevSuffix) :=
    if decide (Z.land (CommandFlags hdr) 128 > 0)
    then ("-Request", "R") else ("-Answer", "A") in
  let code := CommandCode hdr in
  match commandCodes !! code with
  | Some cmd => {| Name := Name cmd +:+ nameSuffix;
                   Abbrev := Abbrev cmd +:+ abbrevSuffix |}
  | None => {| Name := "Unknown"; Abbrev := "?" |}
  end.

End Hdr.

(* ===================================================================== *)
(** * server.go *)
(* ===================================================================== *)

Module Srv.

(** ** Collaborators outside the file *)

(** Modelled from the spec: the dictionary package [diam/dict] is a
    collaborator of the server.  It "exposes a single query
    FindCommand(applicationID, commandCode) -> (shortName, error)";
    [Short] is the short name ("CC" for Credit-Control). *)
Record DictCommand : Type := mkDictCommand {
  Code : Z;
  Short : string;
  LongName : string
}.

Record Parser : Type := mkParser {
  FindCommand : Z → Z → option DictCommand * option error
}.

(** Modelled from the spec: the message codec is a collaborator of the
    server; a [Message] "must expose header fields and a Dictionary()
    accessor usable by the multiplexer".  The header fields are the ones
    the multiplexer reads. *)
Record MessageHeader : Type := mkMessageHeader {
  ApplicationID : Z;
  CommandCode : Z;
  CommandFlags : Z
}.

Record Message : Type := mkMessage {
  Header : MessageHeader;
  Dictionary : Parser
}.

(** Modelled from the spec: the constant [RequestFlag] is declared with
    the message codec; "commandFlags (8 bits: bit7=Request ...)". *)
Definition RequestFlag : Z := 128.

(** ** Handlers, connections, reports *)

(** A [Conn] handed to handlers is the address of a [response]. *)
Definition Conn : Type := nat.

(** Address of a [ServeMux] in the store. *)
Definition addr : Type := nat.

(** What the server observes of user code: it returns, or it panics. *)
Inductive Completion : Type :=
  | Returns
  | Panics (v : string).

Definition UserFunc : Type := Conn → option Message → Completion.

(** A non-nil value of interface type [Handler], by dynamic type: the
    [HandlerFunc] adapter, a [*ServeMux], or a value of a user type, which
    may also have the methods of [ErrorReporter].  A nil interface is
    [None : option Handler]. *)
Inductive Handler : Type :=
  | HandlerFunc (f : UserFunc)
  | ServeMuxPtr (p : addr)
  | UserHandler (f : UserFunc) (reporter : bool).

Record ErrorReport : Type := mkErrorReport {
  er_Conn : Conn;
  er_Message : option Message;
  er_Error : error
}.

(** A buffered Go channel seen by a non-blocking sender: the queued items
    and the capacity. *)
Record Chan (A : Type) : Type := mkChan {
  buf : list A;
  cap : nat
}.
Arguments mkChan {A} _ _.
Arguments buf {A} _.
Arguments cap {A} _.

Definition make_chan (A : Type) (n : nat) : Chan A := mkChan [] n.

(** [select { case ch <- v: default: }] *)
Definition try_send {A} (ch : Chan A) (v : A) : Chan A :=
  if decide (length (buf ch) < cap ch)%nat
  then mkChan (buf ch ++ [v]) (cap ch)
  else ch.

(** [v, ok := <-ch] on a channel that is not closed, without waiting. *)
Definition try_recv {A} (ch : Chan A) : option A * Chan A :=
  match buf ch with
  | [] => (None, ch)
  | v :: rest => (Some v, mkChan rest (cap ch))
  end.

Record muxEntry : Type := mkMuxEntry {
  h : Handler;
  cmd : string
}.

Record ServeMux : Type := mkServeMux {
  e : Chan ErrorReport;
  m : gmap string muxEntry
}.

(** ** Observable events and the state *)

Inductive Event : Type :=
  | EvServeDIAM (hd : Handler) (c : Conn) (msg : option Message)
  | EvError (hd : Handler) (r : ErrorReport)
  | EvClose (fd : nat)
  | EvSetReadDeadline (fd : nat)
  | EvSetWriteDeadline (fd : nat)
  | EvTLSState (fd : nat)
  | EvLog (s : string).

Record World : Type := mkWorld {
  muxes : gmap addr ServeMux;
  trace : list Event
}.

Inductive Outcome (A : Type) : Type :=
  | Ret (a : A)
  | Panic (v : string).
Arguments Ret {A} _.
Arguments Panic {A} _.

(** State and panic monad: a panic keeps the state reached so far. *)
Definition M (A : Type) : Type := World → Outcome A * World.

Definition ret {A} (a : A) : M A := λ w, (Ret a, w).
Definition panic {A} (v : string) : M A := λ w, (Panic v, w).
Definition bind {A B} (x : M A) (k : A → M B) : M B :=
  λ w, match x w with
       | (Ret a, w') => k a w'
       | (Panic v, w') => (Panic v, w')
       end.

Notation "x <- c ;; k" := (bind c (λ x, k))
  (at level 100, c at next level, right associativity).
Notation "c ;;; k" := (bind c (λ _, k))
  (at level 100, right associativity).

Definition emit (ev : Event) : M unit :=
  λ w, (Ret tt, mkWorld (muxes w) (trace w ++ [ev])).

Definition nil_deref : string := "invalid memory address or nil pointer dereference".

Definition load (p : addr) : M ServeMux :=
  λ w, match muxes w !! p with
       | Some mx => (Ret mx, w)
       | None => (Panic nil_deref, w)
       end.

Definition store (p : addr) (mx : ServeMux) : M unit :=
  λ w, (Ret tt, mkWorld (<[p := mx]> (muxes w)) (trace w)).

(** [defer func() { if err := recover(); err != nil { onPanic }; final }()] *)
Definition defer_recover (onPanic : string → M unit) (final : M unit)
    (body : M unit) : M unit :=
  λ w, match body w with
       | (Ret _, w') => final w'
       | (Panic v, w') => (onPanic v ;;; final) w'
       end.

(** ** ServeMux *)

(** NewServeMux allocates and returns a new ServeMux. *)
Definition new_ServeMux : ServeMux :=
  mkServeMux (make_chan ErrorReport 1) ∅.

Definition NewServeMux : M addr :=
  λ w, let p := fresh (dom (muxes w)) in
       (Ret p, mkWorld (<[p := new_ServeMux]> (muxes w)) (trace w)).

(** DefaultServeMux is the default ServeMux used by Serve: the first
    object allocated when the package is initialised. *)
Definition DefaultServeMux : addr := fresh (∅ : gset addr).

Definition init_World : World := (NewServeMux (mkWorld ∅ [])).2.

(** Error implements the ErrorReporter interface. *)
Definition ServeMux_Error (mux : addr) (err : ErrorReport) : M unit :=
  mx <- load mux ;;
  store mux (mkServeMux (try_send (e mx) err) (m mx)).

(** ErrorReports implements the ErrorReporter interface: the channel
    itself; what a reader can take from it is its buffer. *)
Definition ServeMux_ErrorReports (mux : addr) : M (Chan ErrorReport) :=
  mx <- load mux ;; ret (e mx).

(** ** User code *)

(** What the code written by the user of the package does when the server
    calls it.  It runs in the process of the server: it may register
    handlers, submit reports, write to the connection or panic, so each
    call is a computation over the whole state.  [run_ServeDIAM] is
    [ServeDIAM] of a handler that is not a [*ServeMux]; [run_Error] is
    [Error] of a user type that implements [ErrorReporter]. *)
Record UserCode : Type := mkUserCode {
  run_ServeDIAM : Handler → Conn → option Message → M unit;
  run_Error : Handler → ErrorReport → M unit
}.

(** How the [ServeDIAM] of a user handler ends.  A [*ServeMux] is not user
    code: its [ServeDIAM] is the dispatch below, and this function is not
    consulted for it. *)
Definition completion (hd : Handler) (c : Conn) (msg : option Message) : Completion :=
  match hd with
  | HandlerFunc f => f c msg
  | UserHandler f _ => f c msg
  | ServeMuxPtr _ => Returns
  end.

(** A call of a user handler of which only the call and its completion
    are observed. *)
Definition call_user (hd : Handler) (c : Conn) (msg : option Message) : M unit :=
  emit (EvServeDIAM hd c msg) ;;;
  match completion hd c msg with
  | Returns => ret tt
  | Panics v => panic v
  end.

(** User code as seen from outside: every call is recorded in the trace
    and returns or panics; what else it may do is left out. *)
Definition recorded : UserCode :=
  {| run_ServeDIAM := call_user;
     run_Error := λ hd r, emit (EvError hd r) |}.

(** ** Dispatch *)

(** [serve] looks the key up and calls the handler found, [invoke] being
    what [entry.h.ServeDIAM(c, m)] does. *)
Definition ServeMux_serve_with (invoke : Handler → Conn → option Message → M unit)
    (mux : addr) (cmd : string) (c : Conn) (msg : option Message) : M unit :=
  mx <- load mux ;;
  match m mx !! cmd with
  | Some entry => invoke (h entry) c msg
  | None =>
      ServeMux_Error mux
        {| er_Conn := c; er_Message := msg;
           er_Error := errors_New "unhandled message" |}
  end.

(** The key built from a resolved command and the flags of the message. *)
Definition dispatch_key (dcmd : DictCommand) (flags : Z) : string :=
  if decide (Z.land flags RequestFlag = RequestFlag)
  then Short dcmd +:+ "R"
  else Short dcmd +:+ "A".

(** ServeDIAM dispatches the request to the handler that matches the code
    in the incoming message.  If the special "ALL" handler is registered
    it is used as a catch-all.  Otherwise an ErrorReport is sent out. *)
Definition ServeMux_ServeDIAM_with (invoke : Handler → Conn → option Message → M unit)
    (mux : addr) (c : Conn) (msg : option Message) : M unit :=
  _ <- load mux ;;
  match msg with
  | None => panic nil_deref
  | Some msg' =>
      let '(dcmd, err) :=
        FindCommand (Dictionary msg')
          (ApplicationID (Header msg')) (CommandCode (Header msg')) in
      match err with
      | Some _ => ServeMux_serve_with invoke mux "ALL" c msg
      | None =>
          match dcmd with
          | None => panic nil_deref
          | Some dcmd =>
              ServeMux_serve_with invoke mux
                (dispatch_key dcmd (CommandFlags (Header msg'))) c msg
          end
      end
  end.

Definition stack_overflow : string := "stack overflow".

(** [hd.ServeDIAM(c, msg)] through the interface.  For user code it is
    the user's function.  For a [*ServeMux] it is the dispatch of that
    multiplexer, whose entry may again be a multiplexer: [depth] is the
    number of multiplexers that may be entered one inside the other.  A
    chain that does not end (a multiplexer registered, directly or not,
    under the key it dispatches to) exhausts the stack in the code; here
    it ends in a panic when [depth] is used up. *)
Fixpoint Handler_ServeDIAM (user : UserCode) (depth : nat) (hd : Handler) (c : Conn)
    (msg : option Message) : M unit :=
  match hd with
  | ServeMuxPtr q =>
      match depth with
      | O => panic stack_overflow
      | S depth' => ServeMux_ServeDIAM_with (Handler_ServeDIAM user depth') q c msg
      end
  | _ => run_ServeDIAM user hd c msg
  end.

(** The call of the handler of an entry.  No user code runs between two
    multiplexers of a chain, so a chain that enters more multiplexers
    than the store holds has entered one of them twice and does not
    end. *)
Definition invoke_with (user : UserCode) (hd : Handler) (c : Conn)
    (msg : option Message) : M unit :=
  λ w, Handler_ServeDIAM user (size (muxes w)) hd c msg w.

(** The package with user code observed from outside. *)
Definition call_ServeDIAM : Handler → Conn → option Message → M unit :=
  invoke_with recorded.

Definition ServeMux_serve : addr → string → Conn → option Message → M unit :=
  ServeMux_serve_with call_ServeDIAM.

Definition ServeMux_ServeDIAM : addr → Conn → option Message → M unit :=
  ServeMux_ServeDIAM_with call_ServeDIAM.

(** The fields of [ServeMux] are not exported: a multiplexer that does not
    come from [NewServeMux] is the zero value, whose map and channel are
    both nil.  A lookup in a nil map misses and a send on a nil channel
    in a [select] with [default] is dropped, so the zero value is held in
    the store as the multiplexer with no entry and a channel without
    room; its map is nil exactly when its channel has no room. *)
Definition zero_ServeMux : ServeMux := mkServeMux (make_chan ErrorReport 0) ∅.

Definition nil_map (mx : ServeMux) : Prop := cap (e mx) = 0%nat.

#[global] Instance nil_map_dec mx : Decision (nil_map mx).
Proof. unfold nil_map. apply _. Defined.

(** [new(ServeMux)] *)
Definition new_zero_ServeMux : M addr :=
  λ w, let p := fresh (dom (muxes w)) in
       (Ret p, mkWorld (<[p := zero_ServeMux]> (muxes w)) (trace w)).

(** Handle registers the handler for the given code.  The assignment to
    the map panics when the map is nil. *)
Definition ServeMux_Handle (mux : addr) (cmd : string) (handler : option Handler) : M unit :=
  mx <- load mux ;;
  match handler with
  | None => panic "DIAM: nil handler"
  | Some handler =>
      if decide (nil_map mx) then panic "assignment to entry in nil map"
      else store mux (mkServeMux (e mx) (<[cmd := mkMuxEntry handler cmd]> (m mx)))
  end.

(** HandleFunc registers the handler function for the given command. *)
Definition ServeMux_HandleFunc (mux : addr) (cmd : string) (handler : UserFunc) : M unit :=
  ServeMux_Handle mux cmd (Some (HandlerFunc handler)).

(** The package-level wrappers act on the DefaultServeMux. *)
Definition Handle (cmd : string) (handler : option Handler) : M unit :=
  ServeMux_Handle DefaultServeMux cmd handler.

Definition HandleFunc (cmd : string) (handler : UserFunc) : M unit :=
  ServeMux_HandleFunc DefaultServeMux cmd handler.

Definition ErrorReports : M (Chan ErrorReport) :=
  ServeMux_ErrorReports DefaultServeMux.

(** ** Server and connection *)

Record Server : Type := mkServer {
  Addr : string;
  Server_Handler : option Handler;
  Dict : option Parser;
  ReadTimeout : Z;
  WriteTimeout : Z
}.

(** The socket: its descriptor and, for a [*tls.Conn], what [Handshake]
    returns. *)
Record NetConn : Type := mkNetConn {
  fd : nat;
  tls_handshake : option (option error)
}.

Record conn : Type := mkConn {
  server : Server;
  rwc : NetConn;
  writer : Conn
}.

(** What one call of the message codec's [ReadMessage] returns. *)
Definition ReadResult : Type := (option Message * option error)%type.

(** Read next message from connection; [res] is what [ReadMessage] yields
    on the buffered reader, with the dictionary of the server or the
    default one. *)
Definition conn_readMessage (c : conn) (res : ReadResult) : M ReadResult :=
  (if decide (ReadTimeout (server c) > 0)
   then emit (EvSetReadDeadline (fd (rwc c))) else ret tt) ;;;
  let '(msg, err) := res in
  match err with
  | Some err => ret (None, Some err)
  | None => ret (msg, None)
  end.

(** The handler a server uses: its own, or the DefaultServeMux. *)
Definition active_handler (srv : Server) : Handler :=
  match Server_Handler srv with
  | Some hd => hd
  | None => ServeMuxPtr DefaultServeMux
  end.

(** serverHandler delegates to either the server's Handler or
    DefaultServeMux. *)
Definition serverHandler_ServeDIAM_with (user : UserCode) (srv : Server) (w : Conn)
    (msg : option Message) : M unit :=
  match active_handler srv with
  | ServeMuxPtr p => ServeMux_ServeDIAM_with (invoke_with user) p w msg
  | hd => run_ServeDIAM user hd w msg
  end.

(** [er, ok := hd.(ErrorReporter); if ok { er.Error(r) }] *)
Definition report_error_with (user : UserCode) (hd : Handler) (r : ErrorReport) : M unit :=
  match hd with
  | ServeMuxPtr p => ServeMux_Error p r
  | UserHandler _ true => run_Error user hd r
  | UserHandler _ false => ret tt
  | HandlerFunc _ => ret tt
  end.

Definition implements_ErrorReporter (hd : Handler) : bool :=
  match hd with
  | ServeMuxPtr _ => true
  | UserHandler _ reporter => reporter
  | HandlerFunc _ => false
  end.

(** The branch of the serving loop taken when reading fails. *)
Definition read_failed_with (user : UserCode) (c : conn) (msg : option Message)
    (err : error) : M unit :=
  emit (EvClose (fd (rwc c))) ;;;
  if decide (err ≠ io_EOF ∧ err ≠ io_ErrUnexpectedEOF) then
    report_error_with user (active_handler (server c)) (mkErrorReport (writer c) msg err)
  else ret tt.

(** One turn of the [for] loop of [conn.serve]; [continue] is the rest of
    the loop. *)
Definition serve_iteration_with (user : UserCode) (c : conn) (res : ReadResult)
    (continue : M unit) : M unit :=
  r <- conn_readMessage c res ;;
  match r.2 with
  | Some err => read_failed_with user c r.1 err
  | None =>
      serverHandler_ServeDIAM_with user (server c) (writer c) r.1 ;;;
      continue
  end.

(** The loop over the successive results of [ReadMessage]; a stream with
    nothing left ends in [io.EOF]. *)
Fixpoint serve_loop_with (user : UserCode) (c : conn) (inbox : list ReadResult) : M unit :=
  match inbox with
  | [] => serve_iteration_with user c (None, Some io_EOF) (ret tt)
  | res :: rest => serve_iteration_with user c res (serve_loop_with user c rest)
  end.

(** Serve a new connection.  The line logged on a panic also carries the
    address of the peer and the stack, which the model does not hold. *)
Definition conn_serve_with (user : UserCode) (c : conn) (inbox : list ReadResult) : M unit :=
  defer_recover
    (λ v, emit (EvLog ("DIAM: panic serving: " +:+ v)))
    (emit (EvClose (fd (rwc c))))
    (match tls_handshake (rwc c) with
     | Some (Some _) => ret tt
     | Some None => emit (EvTLSState (fd (rwc c))) ;;; serve_loop_with user c inbox
     | None => serve_loop_with user c inbox
     end).

(** The connection with user code observed from outside. *)
Definition serverHandler_ServeDIAM : Server → Conn → option Message → M unit :=
  serverHandler_ServeDIAM_with recorded.

Definition report_error : Handler → ErrorReport → M unit :=
  report_error_with recorded.

Definition read_failed : conn → option Message → error → M unit :=
  read_failed_with recorded.

Definition serve_iteration : conn → ReadResult → M unit → M unit :=
  serve_iteration_with recorded.

Definition serve_loop : conn → list ReadResult → M unit :=
  serve_loop_with recorded.

Definition conn_serve : conn → list ReadResult → M unit :=
  conn_serve_with recorded.

(** ** The write path *)

(** The two methods of [bufio.Writer] the write path uses, as an
    interface over the writer's state. *)
Class BufWriter (W : Type) : Type := {
  Writer_Write : list Z → W → (Z * option error) * W;
  Writer_Flush : W → option error * W
}.

(** Write writes the message to the connection.  The state is the
    buffered writer of the connection and the trace of socket calls. *)
Definition response_Write `{BufWriter W} (c : conn) (b : list Z)
    (st : W * list Event) : (Z * option error) * (W * list Event) :=
  let '(bw, tr) := st in
  let tr :=
    if decide (WriteTimeout (server c) > 0)
    then tr ++ [EvSetWriteDeadline (fd (rwc c))] else tr in
  let '(n, err, bw) := Writer_Write b bw in
  match err with
  | Some err => (0, Some err, (bw, tr))
  | None =>
      let '(err, bw) := Writer_Flush bw in
      match err with
      | Some err => (0, Some err, (bw, tr))
      | None => (n, None, (bw, tr))
      end
  end.

(** Close closes the connection. *)
Definition response_Close (c : conn) : M unit := emit (EvClose (fd (rwc c))).

(** *** A buffered writer over a socket that fails after [room] bytes *)

Record Sink : Type := mkSink {
  sent : list Z;
  room : nat;
  fault : error
}.

Definition Sink_Write (p : list Z) (s : Sink) : nat * option error * Sink :=
  if decide (length p ≤ room s)%nat
  then (length p, None, mkSink (sent s ++ p) (room s - length p) (fault s))
  else (room s, Some (fault s), mkSink (sent s ++ take (room s) p) 0 (fault s)).

Record bufio_Writer : Type := mkBufio {
  bw_err : option error;
  bw_buf : list Z;
  bw_size : nat;
  bw_wr : Sink
}.

Definition bufio_Available (b : bufio_Writer) : nat := (bw_size b - length (bw_buf b))%nat.

Definition bufio_Flush (b : bufio_Writer) : option error * bufio_Writer :=
  match bw_err b with
  | Some err => (Some err, b)
  | None =>
      match bw_buf b with
      | [] => (None, b)
      | _ =>
          let '(n, err, wr) := Sink_Write (bw_buf b) (bw_wr b) in
          match err with
          | Some err => (Some err, mkBufio (Some err) (drop n (bw_buf b)) (bw_size b) wr)
          | None => (None, mkBufio None [] (bw_size b) wr)
          end
      end
  end.

Fixpoint bufio_Write_loop (fuel : nat) (p : list Z) (nn : nat) (b : bufio_Writer)
    : Z * option error * bufio_Writer :=
  match fuel with
  | S fuel' =>
      if decide (bufio_Available b < length p)%nat then
        match bw_err b with
        | Some err => (Z.of_nat nn, Some err, b)
        | None =>
            match bw_buf b with
            | [] =>
                let '(n, err, wr) := Sink_Write p (bw_wr b) in
                bufio_Write_loop fuel' (drop n p) (nn + n)
                  (mkBufio err [] (bw_size b) wr)
            | _ =>
                let n := bufio_Available b in
                let '(_, b') :=
                  bufio_Flush (mkBufio None (bw_buf b ++ take n p) (bw_size b) (bw_wr b)) in
                bufio_Write_loop fuel' (drop n p) (nn + n) b'
            end
        end
      else
        match bw_err b with
        | Some err => (Z.of_nat nn, Some err, b)
        | None =>
            (Z.of_nat (nn + length p), None,
             mkBufio None (bw_buf b ++ p) (bw_size b) (bw_wr b))
        end
  | O => (Z.of_nat nn, Some (errorString "short write"), b)
  end.

Definition bufio_Write (p : list Z) (b : bufio_Writer) : Z * option error * bufio_Writer :=
  bufio_Write_loop (3 + length p) p 0 b.

#[global] Instance bufio_BufWriter : BufWriter bufio_Writer :=
  {| Writer_Write := bufio_Write; Writer_Flush := bufio_Flush |}.

(** ** Invariant of the error mailbox *)

(** The channel made by [NewServeMux] has one slot, and never holds more
    than that. *)
Definition mailbox_ok (mx : ServeMux) : Prop :=
  cap (e mx) = 1%nat ∧ (length (buf (e mx)) ≤ 1)%nat.

(** The invariant over the store, and the computations that keep it. *)
Definition World_ok (w : World) : Prop :=
  ∀ q mx, muxes w !! q = Some mx → mailbox_ok mx.

Definition preserves {A} (x : M A) : Prop :=
  ∀ w, World_ok w → World_ok (x w).2.

(** The key the dispatcher looks up for a message, when the dictionary
    answers with a command or with an error. *)
Definition lookup_key (msg : Message) : option string :=
  match FindCommand (Dictionary msg)
          (ApplicationID (Header msg)) (CommandCode (Header msg)) with
  | (_, Some _) => Some "ALL"
  | (Some dcmd, None) => Some (dispatch_key dcmd (CommandFlags (Header msg)))
  | (None, None) => None
  end.

(** The report of a dispatch miss. *)
Definition unhandled (c : Conn) (msg : option Message) : ErrorReport :=
  {| er_Conn := c; er_Message := msg; er_Error := errorString "unhandled message" |}.

(** The socket calls of a failed turn of the serving loop. *)
Definition failed_turn (c : conn) (w : World) : World :=
  mkWorld (muxes w)
    (trace w
     ++ (if decide (ReadTimeout (server c) > 0)
         then [EvSetReadDeadline (fd (rwc c))] else [])
     ++ [EvClose (fd (rwc c))]).

(** ** Sample data *)

(** The Credit-Control command of the Gx dictionary file (application
    16777238, code 272, short name "CC"). *)
Definition gx_dict : Parser :=
  mkParser (λ appid code,
    if decide (appid = 16777238 ∧ code = 272)
    then (Some (mkDictCommand 272 "CC" "Credit-Control"), None)
    else (None, Some (errorString "Could not find preloaded Command"))).

Definition ccr_msg : Message := mkMessage (mkMessageHeader 16777238 272 192) gx_dict.
Definition cca_msg : Message := mkMessage (mkMessageHeader 16777238 272 64) gx_dict.
Definition cer_msg : Message := mkMessage (mkMessageHeader 0 257 128) gx_dict.
Definition truncated_header : Reader := mkReader [1; 0; 0] io_EOF.

Definition quiet : UserFunc := λ _ _, Returns.

Definition sample_server : Server := mkServer ":3868" None None 0 0.
Definition sample_conn : conn := mkConn sample_server (mkNetConn 7 None) 1%nat.

Definition ccr_World : World :=
  (ServeMux_HandleFunc DefaultServeMux "CCR" quiet init_World).2.

(** A second multiplexer, with nothing registered, registered as the
    handler of "CCR" on the default one. *)
Definition inner_mux : addr := fresh (dom (muxes init_World)).

Definition nested_World : World :=
  ((q <- NewServeMux ;;
    ServeMux_Handle DefaultServeMux "CCR" (Some (ServeMuxPtr q))) init_World).2.

(** The default multiplexer registered as its own handler of "CCR". *)
Definition looping_World : World :=
  (ServeMux_Handle DefaultServeMux "CCR" (Some (ServeMuxPtr DefaultServeMux)) init_World).2.

(** A multiplexer that does not come from [NewServeMux], next to the
    default one. *)
Definition zero_World : World := (new_zero_ServeMux init_World).2.

(** ** Reading the mailbox *)

(** [r := <-mux.ErrorReports()] by a consumer that finds a report
    waiting; with an empty mailbox nothing is taken. *)
Definition ErrorReports_recv (mux : addr) : M (option ErrorReport) :=
  mx <- load mux ;;
  let '(r, ch) := try_recv (e mx) in
  store mux (mkServeMux ch (m mx)) ;;;
  ret r.

(** A producer and a consumer in step: each report is submitted and then
    taken before the next one is submitted; the result is what the
    consumer received, in order. *)
Fixpoint submit_and_take (mux : addr) (rs : list ErrorReport)
    : M (list (option ErrorReport)) :=
  match rs with
  | [] => ret []
  | r :: rest =>
      ServeMux_Error mux r ;;;
      x <- ErrorReports_recv mux ;;
      xs <- submit_and_take mux rest ;;
      ret (x :: xs)
  end.

(** The messages of a stream that are read before the first failure. *)
Fixpoint readable (inbox : list ReadResult) : list (option Message) :=
  match inbox with
  | (msg, None) :: rest => msg :: readable rest
  | _ => []
  end.

(** Two states with the same multiplexers and, in each, the same
    entries. *)
Definition tables_kept (w w' : World) : Prop :=
  ∀ q, m <$> (muxes w' !! q) = m <$> (muxes w !! q).

Definition keeps_tables {A} (x : M A) : Prop :=
  ∀ w, tables_kept w (x w).2.

(** ** Disconnect detection *)

(** Where the buffered reader of a connection reads from. *)
Inductive ReadSource : Type :=
  | FromSocket
  | FromPipe (pipe : nat).

(** The fields of [conn] guarded by [mu], the switchable reader, and what
    [closeNotify] has started: [closeNotifyc] is [None] for a nil channel
    and [Some closed] for an allocated one; [copiers] lists the copy tasks
    started, each with its pipe and the source it drains; [pipe_err] is
    the error a pipe's write end was closed with. *)
Record Notifier : Type := mkNotifier {
  closeNotifyc : option bool;
  clientGone : bool;
  sr_r : ReadSource;
  copiers : list (nat * ReadSource);
  pipe_err : gmap nat error
}.

Definition new_Notifier : Notifier := mkNotifier None false FromSocket [] ∅.

(** [close(ch)]: a nil or already closed channel makes it panic. *)
Definition chan_close (ch : option bool) : Outcome (option bool) :=
  match ch with
  | None => Panic "close of nil channel"
  | Some true => Panic "close of closed channel"
  | Some false => Ret (Some true)
  end.

Definition conn_closeNotify (st : Notifier) : option bool * Notifier :=
  match closeNotifyc st with
  | None =>
      let pipe := length (copiers st) in
      let readSource := sr_r st in
      let st' := mkNotifier (Some false) (clientGone st) (FromPipe pipe)
                   (copiers st ++ [(pipe, readSource)]) (pipe_err st) in
      (closeNotifyc st', st')
  | Some _ => (closeNotifyc st, st)
  end.

Definition conn_notifyClientGone (st : Notifier) : Outcome unit * Notifier :=
  if decide (closeNotifyc st ≠ None ∧ clientGone st = false) then
    match chan_close (closeNotifyc st) with
    | Ret ch => (Ret tt, mkNotifier ch true (sr_r st) (copiers st) (pipe_err st))
    | Panic v => (Panic v, st)
    end
  else (Ret tt, st).

(** The end of the copy task of [closeNotify]: [io.Copy] has returned
    [err]; the pipe is closed with it, or with [io.EOF] when it is nil,
    and the client is declared gone. *)
Definition copier_done (pipe : nat) (err : option error) (st : Notifier)
    : Outcome unit * Notifier :=
  let err := match err with None => io_EOF | Some err => err end in
  conn_notifyClientGone
    (mkNotifier (closeNotifyc st) (clientGone st) (sr_r st) (copiers st)
       (<[pipe := err]> (pipe_err st))).

Inductive NotifierOp : Type :=
  | OpCloseNotify
  | OpNotifyClientGone
  | OpCopierDone (pipe : nat) (err : option error).

Definition run_op (op : NotifierOp) (st : Notifier) : Outcome unit * Notifier :=
  match op with
  | OpCloseNotify => (Ret tt, (conn_closeNotify st).2)
  | OpNotifyClientGone => conn_notifyClientGone st
  | OpCopierDone pipe err => copier_done pipe err st
  end.

(** The calls are serialised by [mu]: a history is a list of them. *)
Fixpoint run_ops (ops : list NotifierOp) (st : Notifier) : Outcome unit * Notifier :=
  match ops with
  | [] => (Ret tt, st)
  | op :: rest =>
      match run_op op st with
      | (Ret _, st') => run_ops rest st'
      | (Panic v, st') => (Panic v, st')
      end
  end.

(** The latch and the channel agree. *)
Definition Notifier_ok (st : Notifier) : Prop :=
  (clientGone st = true → closeNotifyc st = Some true)
  ∧ (closeNotifyc st = Some true → clientGone st = true).

(** ** The context of a response *)

Inductive GoContext : Type :=
  | context_Background
  | context_Of (id : nat).

(** Context returns the internal context or a new context.Background. *)
Definition response_Context (ctx : option GoContext) : option GoContext * option GoContext :=
  let ctx := match ctx with
             | None => Some context_Background
             | Some _ => ctx
             end in
  (ctx, ctx).

(** SetContext replaces the internal context with the given one. *)
Definition response_SetContext (new : option GoContext) (ctx : option GoContext)
    : option GoContext := new.

(** ** The accept loop *)

(** [time.Duration]: nanoseconds in an [int64]. *)
Definition int64_wrap (v : Z) : Z := (v + 2 ^ 63) mod 2 ^ 64 - 2 ^ 63.
Definition time_Millisecond : Z := 1000000.
Definition time_Second : Z := 1000000000.

(** What [l.Accept()] returns: a socket, or an error; [temporary] tells
    whether the error is a [net.Error] whose [Temporary()] is true. *)
Inductive AcceptResult : Type :=
  | Accepted (rw : NetConn)
  | AcceptError (err : error) (temporary : bool).

(** A listener: the results of its successive [Accept] calls, and the
    permanent error it fails with when they are used up. *)
Record Listener : Type := mkListener {
  backlog : list AcceptResult;
  closed_with : error
}.

Inductive ListenerEvent : Type :=
  | LvLog (err : error) (delay : Z)
  | LvSleep (delay : Z)
  | LvGoServe (c : option conn)
  | LvClose.

(** Create new connection from rwc.  The response handed to handlers is
    identified by the descriptor of its socket. *)
Definition Server_newConn (srv : Server) (rwc : NetConn) : option conn * option error :=
  (Some (mkConn srv rwc (fd rwc)), None).

(** The update of [tempDelay] on a temporary accept error. *)
Definition next_delay (tempDelay : Z) : Z :=
  let tempDelay :=
    if decide (tempDelay = 0)
    then int64_wrap (5 * time_Millisecond)
    else int64_wrap (tempDelay * 2) in
  let max := int64_wrap (1 * time_Second) in
  if decide (tempDelay > max) then max else tempDelay.

Fixpoint accept_loop (srv : Server) (results : list AcceptResult) (closing : error)
    (tempDelay : Z) : option error * list ListenerEvent :=
  match results with
  | [] => (Some closing, [])
  | AcceptError err true :: rest =>
      let tempDelay := next_delay tempDelay in
      let '(ret_err, evs) := accept_loop srv rest closing tempDelay in
      (ret_err, LvLog err tempDelay :: LvSleep tempDelay :: evs)
  | AcceptError err false :: _ => (Some err, [])
  | Accepted rw :: rest =>
      let tempDelay := 0 in
      let '(c, err) := Server_newConn srv rw in
      match err with
      | Some _ => accept_loop srv rest closing tempDelay
      | None =>
          let '(ret_err, evs) := accept_loop srv rest closing tempDelay in
          (ret_err, LvGoServe c :: evs)
      end
  end.

(** Serve accepts incoming connections on the Listener l, creating a new
    service goroutine for each. *)
Definition Server_Serve (srv : Server) (l : Listener) : option error * list ListenerEvent :=
  let '(err, evs) := accept_loop srv (backlog l) (closed_with l) 0 in
  (err, evs ++ [LvClose]).

(** Serve, at package level, with a handler that is typically nil. *)
Definition Serve (l : Listener) (handler : option Handler) : option error * list ListenerEvent :=
  Server_Serve (mkServer "" handler None 0 0) l.

Definition sleeps (evs : list ListenerEvent) : list Z :=
  omap (λ ev, match ev with LvSleep d => Some d | _ => None end) evs.

Definition served_conns (evs : list ListenerEvent) : list (option conn) :=
  omap (λ ev, match ev with LvGoServe c => Some c | _ => None end) evs.

(** The sockets accepted before the first permanent error. *)
Fixpoint accepted_sockets (results : list AcceptResult) : list NetConn :=
  match results with
  | [] => []
  | Accepted rw :: rest => rw :: accepted_sockets rest
  | AcceptError _ true :: rest => accepted_sockets rest
  | AcceptError _ false :: _ => []
  end.

(** The delay slept on the [n]-th of a run of temporary errors, counted
    from 0: 5ms doubled [n] times, at most 1s. *)
Definition backoff (n : nat) : Z :=
  Z.min (5 * time_Millisecond * 2 ^ Z.of_nat n) time_Second.

Definition temporary_errors (errs : list error) : list AcceptResult :=
  (λ err, AcceptError err true) <$> errs.

(** The handler invocations recorded in a trace, in order. *)
Definition dispatched (tr : list Event) : list (Handler * Conn * option Message) :=
  omap (λ ev, match ev with
              | EvServeDIAM hd c msg => Some (hd, c, msg)
              | _ => None
              end) tr.

Definition panicky : UserFunc := λ _ _, Panics "boom".

End Srv.

(* ===================================================================== *)
(** * Properties of the header codec *)
(* ===================================================================== *)

Section HeaderCodec.
Import Hdr.

(** ** Bytes and big-endian integers *)

Lemma byte_of_mod v : byte_of v = v mod 2 ^ 8.
Proof. unfold byte_of. change 255 with (Z.ones 8). by rewrite Z.land_ones. Qed.

Lemma byte_of_uint8 v : is_uint8 v → byte_of v = v.
Proof. intros Hv. rewrite byte_of_mod. apply Z.mod_small. exact Hv. Qed.

Lemma byte_of_is_uint8 v : is_uint8 (byte_of v).
Proof. rewrite byte_of_mod. unfold is_uint8. apply Z.mod_pos_bound. lia. Qed.

(** Bit [n] of the byte taken at offset [k] and put back at offset [k]. *)
Lemma testbit_byte_at v k n :
  0 ≤ k → 0 ≤ n →
  Z.testbit (Z.shiftl (byte_of (Z.shiftr v k)) k) n =
  if decide (k ≤ n < k + 8) then Z.testbit v n else false.
Proof.
  intros Hk Hn. rewrite Z.shiftl_spec by lia. rewrite byte_of_mod.
  case_decide as Hr.
  - rewrite Z.mod_pow2_bits_low by lia. rewrite Z.shiftr_spec by lia.
    f_equal. lia.
  - destruct (decide (n < k)) as [Hlt|Hge].
    + apply Z.testbit_neg_r. lia.
    + apply Z.mod_pow2_bits_high. lia.
Qed.

Lemma byte_at_0 v : byte_of v = Z.shiftl (byte_of (Z.shiftr v 0)) 0.
Proof. by rewrite Z.shiftr_0_r, Z.shiftl_0_r. Qed.

Lemma testbit_above v w n : 0 ≤ v < 2 ^ w → 0 ≤ w ≤ n → Z.testbit v n = false.
Proof.
  intros Hv Hn. rewrite <- (Z.mod_small v (2 ^ w)) by lia.
  apply Z.mod_pow2_bits_high. lia.
Qed.

Lemma Uint32_PutUint32 v :
  is_uint32 v →
  BigEndian_Uint32 (byte_of (Z.shiftr v 24)) (byte_of (Z.shiftr v 16))
    (byte_of (Z.shiftr v 8)) (byte_of v) = v.
Proof.
  intros Hv. unfold BigEndian_Uint32.
  rewrite (byte_at_0 v).
  apply Z.bits_inj'. intros n Hn.
  rewrite !Z.lor_spec, !testbit_byte_at by lia.
  destruct (decide (n < 32)) as [Hlt|Hge].
  - repeat case_decide; try lia; by rewrite ?orb_false_r, ?orb_false_l.
  - rewrite (testbit_above v 32 n) by (done || lia).
    repeat case_decide; try lia; done.
Qed.

(** The 24-bit helpers are inverse of each other, up to truncation. *)
Lemma uint24To32_uint32To24 n : uint24To32 (uint32To24 n) = n mod 2 ^ 24.
Proof.
  unfold uint24To32, uint32To24.
  rewrite (byte_at_0 n).
  apply Z.bits_inj'. intros i Hi.
  rewrite !Z.lor_spec, !testbit_byte_at by lia.
  destruct (decide (i < 24)) as [Hlt|Hge].
  - rewrite Z.mod_pow2_bits_low by lia.
    repeat case_decide; try lia; by rewrite ?orb_false_r, ?orb_false_l.
  - rewrite Z.mod_pow2_bits_high by lia.
    repeat case_decide; try lia; done.
Qed.

Lemma uint24To32_bound b : is_uint24 b → 0 ≤ uint24To32 b < 2 ^ 24.
Proof.
  destruct b as [[b0 b1] b2]. intros (H0 & H1 & H2).
  unfold uint24To32, is_uint8 in *.
  assert (Hnn : 0 ≤ Z.lor (Z.lor (Z.shiftl b0 16) (Z.shiftl b1 8)) b2).
  { rewrite !Z.lor_nonneg, !Z.shiftl_nonneg. lia. }
  split; [exact Hnn|].
  destruct (decide (Z.lor (Z.lor (Z.shiftl b0 16) (Z.shiftl b1 8)) b2 = 0)) as [->|Hne];
    [lia|].
  apply Z.log2_lt_pow2; [lia|].
  rewrite !Z.log2_lor by (rewrite ?Z.lor_nonneg, ?Z.shiftl_nonneg; lia).
  assert (Hl : ∀ b k, 0 ≤ b < 256 → 0 ≤ k → Z.log2 (Z.shiftl b k) < 8 + k).
  { intros b k Hb Hk. destruct (decide (b = 0)) as [->|Hb0].
    - rewrite Z.shiftl_0_l. simpl. lia.
    - rewrite Z.log2_shiftl by lia.
      assert (Z.log2 b < 8) by (apply Z.log2_lt_pow2; lia). lia. }
  pose proof (Hl b0 16 H0 ltac:(lia)). pose proof (Hl b1 8 H1 ltac:(lia)).
  pose proof (Hl b2 0 H2 ltac:(lia)) as Hb2. rewrite Z.shiftl_0_r in Hb2.
  lia.
Qed.

Lemma uint32To24_uint24To32 b : is_uint24 b → uint32To24 (uint24To32 b) = b.
Proof.
  destruct b as [[b0 b1] b2]. intros (H0 & H1 & H2).
  assert (Hbit : ∀ k i, 0 ≤ k → 0 ≤ i →
    Z.testbit (byte_of (Z.shiftr (uint24To32 (b0, b1, b2)) k)) i =
    if decide (i < 8) then Z.testbit (uint24To32 (b0, b1, b2)) (i + k) else false).
  { intros k i Hk Hi. rewrite byte_of_mod. case_decide.
    - rewrite Z.mod_pow2_bits_low by lia. by rewrite Z.shiftr_spec by lia.
    - apply Z.mod_pow2_bits_high. lia. }
  assert (Hsrc : ∀ j, 0 ≤ j →
    Z.testbit (uint24To32 (b0, b1, b2)) j =
    Z.testbit b0 (j - 16) || Z.testbit b1 (j - 8) || Z.testbit b2 j).
  { intros j Hj. unfold uint24To32. by rewrite !Z.lor_spec, !Z.shiftl_spec by lia. }
  assert (Hhi : ∀ b j, is_uint8 b → 8 ≤ j → Z.testbit b j = false).
  { intros b j Hb Hj. apply (testbit_above b 8 j); [exact Hb|lia]. }
  unfold uint32To24. f_equal; [f_equal|].
  - apply Z.bits_inj'. intros i Hi. rewrite Hbit by lia. case_decide.
    + rewrite Hsrc by lia. replace (i + 16 - 16) with i by lia.
      rewrite (Hhi b1 (i + 16 - 8)), (Hhi b2 (i + 16)) by (done || lia).
      by rewrite !orb_false_r.
    + symmetry. apply Hhi; [done|lia].
  - apply Z.bits_inj'. intros i Hi. rewrite Hbit by lia. case_decide.
    + rewrite Hsrc by lia. replace (i + 8 - 8) with i by lia.
      rewrite (Z.testbit_neg_r b0 (i + 8 - 16)) by lia.
      rewrite (Hhi b2 (i + 8)) by (done || lia).
      by rewrite orb_false_r.
    + symmetry. apply Hhi; [done|lia].
  - rewrite <- (Z.shiftr_0_r (uint24To32 (b0, b1, b2))).
    apply Z.bits_inj'. intros i Hi. rewrite Hbit by lia. case_decide.
    + rewrite Hsrc by lia. rewrite Z.add_0_r.
      rewrite (Z.testbit_neg_r b0 (i - 16)), (Z.testbit_neg_r b1 (i - 8)) by lia.
      done.
    + symmetry. apply Hhi; [done|lia].
Qed.

(** ** Layout *)

Lemma Header_binary_Size : Z.to_nat (binary_Size Header_fields) = 20%nat.
Proof. reflexivity. Qed.

Lemma Header_Sizeof : unsafe_Sizeof Header_fields = 20.
Proof. reflexivity. Qed.

Lemma Encode_length h : length (Encode h) = 20%nat.
Proof. destruct h as [v [[l0 l1] l2] f [[c0 c1] c2] a p e]. reflexivity. Qed.

(** ** Decoding *)

(** With fewer than 20 bytes left, [ReadHeader] fails with the error of
    the read and returns no header. *)
Lemma ReadHeader_short r :
  (length (pending r) < 20)%nat →
  ReadHeader r =
    (None,
     Some (match final r, pending r with
           | io_EOF, _ :: _ => io_ErrUnexpectedEOF
           | e, _ => e
           end),
     mkReader [] (final r)).
Proof.
  intros Hlen. unfold ReadHeader, binary_Read, io_ReadFull.
  rewrite Header_binary_Size. case_decide; [lia|]. reflexivity.
Qed.

(** With 20 bytes or more, the outcome is decided by the first byte. *)
Lemma ReadHeader_full r :
  (20 ≤ length (pending r))%nat →
  ReadHeader r =
    let hdr := decode_Header (take 20 (pending r)) in
    let r' := mkReader (drop 20 (pending r)) (final r) in
    if decide (Version hdr ≠ 1) then (None, Some (VersionError (Version hdr)), r')
    else (Some hdr, None, r').
Proof.
  intros Hlen. unfold ReadHeader, binary_Read, io_ReadFull.
  rewrite Header_binary_Size. case_decide; [|lia]. reflexivity.
Qed.

(** C1. Header round-trip: for every header [h] holding valid field
    values and version 1, decoding with [ReadHeader] the 20 bytes of the
    big-endian wire form of [h] (followed by anything) yields [h] itself,
    no error, and leaves the reader just after the header. *)
Theorem ReadHeader_Encode_roundtrip (h : Header) (rest : list Z) (fin : error) :
  wf_Header h → Version h = 1 →
  ReadHeader (mkReader (Encode h ++ rest) fin) = (Some h, None, mkReader rest fin).
Proof.
  intros Hwf Hv. rewrite ReadHeader_full; cbn [pending final].
  2: { rewrite length_app, Encode_length. lia. }
  rewrite take_app_length' by (by rewrite Encode_length).
  rewrite drop_app_length' by (by rewrite Encode_length).
  destruct Hwf as [_ _ _ _ Ha Hp He].
  destruct h as [v [[l0 l1] l2] f [[c0 c1] c2] a p e]. cbn in *. subst v.
  case_decide; [done|].
  unfold decode_Header, BigEndian_PutUint32. cbn [nth].
  by rewrite !Uint32_PutUint32 by done.
Qed.

Lemma ReadHeader_Encode_roundtrip_witness :
  ReadHeader (mkReader
    (Encode (mkHeader 1 (0, 0, 20) 128 (0, 1, 16) 16777238 7 4294967295) ++ [1; 0]) io_EOF)
  = (Some (mkHeader 1 (0, 0, 20) 128 (0, 1, 16) 16777238 7 4294967295), None,
     mkReader [1; 0] io_EOF).
Proof.
  apply ReadHeader_Encode_roundtrip.
  - split; cbn; unfold is_uint8, is_uint32; lia.
  - reflexivity.
Defined.

(** C2, as stated, fails: a stream that starts with a byte other than 1
    and ends before the 20th byte is rejected with the error of the read,
    which is not of version kind. *)
Lemma ReadHeader_version_counterexample :
  ¬ (∀ r b rest, pending r = b :: rest → b ≠ 1 →
       (ReadHeader r).1.1 = None ∧ is_VersionError (ReadHeader r).1.2).
Proof.
  intros Hclaim.
  destruct (Hclaim (mkReader [2] io_EOF) 2 [] eq_refl ltac:(lia)) as [_ [v Hv]].
  vm_compute in Hv. discriminate Hv.
Qed.

(** C2, amended. For every stream whose first byte [b] is not 1,
    [ReadHeader] returns no header and an error; the error is of version
    kind for [b] when the stream holds 20 bytes or more, and is the error
    of the read (unexpected end of stream, or the reader's own error) when
    it holds fewer. *)
Theorem ReadHeader_bad_version (r : Reader) (b : Z) (rest : list Z) :
  pending r = b :: rest → b ≠ 1 →
  (ReadHeader r).1.1 = None
  ∧ (ReadHeader r).1.2 ≠ None
  ∧ ((20 ≤ length (pending r))%nat → (ReadHeader r).1.2 = Some (VersionError b))
  ∧ ((length (pending r) < 20)%nat →
       (ReadHeader r).1.2 =
         Some (match final r with io_EOF => io_ErrUnexpectedEOF | err => err end)).
Proof.
  intros Hp Hb.
  destruct (decide (20 ≤ length (pending r))%nat) as [Hlen|Hlen].
  - rewrite ReadHeader_full by done. cbn zeta.
    assert (Hv : Version (decode_Header (take 20 (pending r))) = b).
    { rewrite Hp. reflexivity. }
    rewrite Hv. case_decide; [|done]. cbn.
    split; [done|]. split; [done|]. split; [done|]. intros; lia.
  - rewrite ReadHeader_short by lia. rewrite Hp. cbn.
    split; [done|]. split; [by destruct (final r)|].
    split; [intros Hge; exfalso; apply Hlen; by rewrite Hp|].
    intros _. by destruct (final r).
Qed.

Lemma ReadHeader_bad_version_witness :
  (ReadHeader (mkReader [2; 0; 0; 20; 0; 0; 1; 1; 0; 0; 0; 0; 0; 0; 0; 1; 0; 0; 0; 2]
     io_EOF)).1.2 = Some (errorString "Invalid diameter version 2").
Proof.
  refine (proj1 (proj2 (proj2
    (ReadHeader_bad_version
       (mkReader [2; 0; 0; 20; 0; 0; 1; 1; 0; 0; 0; 0; 0; 0; 0; 1; 0; 0; 0; 2] io_EOF)
       2 [0; 0; 20; 0; 0; 1; 1; 0; 0; 0; 0; 0; 0; 0; 1; 0; 0; 0; 2] _ _))) _).
  - reflexivity.
  - lia.
  - cbn. lia.
Defined.

(** ** Command names *)

(** The suffixes are used when the code is in the table. *)
Lemma CommandName_known hdr cmd :
  commandCodes !! CommandCode hdr = Some cmd →
  CommandName hdr =
    if decide (Z.land (CommandFlags hdr) 128 > 0)
    then mkCommand (Name cmd +:+ "-Request") (Abbrev cmd +:+ "R")
    else mkCommand (Name cmd +:+ "-Answer") (Abbrev cmd +:+ "A").
Proof. intros Hc. unfold CommandName. rewrite Hc. by case_decide. Qed.

(** C7. For every header whose command code is absent from the static
    table, [CommandName] returns exactly [{"Unknown", "?"}], with no
    suffix, whatever the flags (so for both values of the Request bit). *)
Theorem CommandName_unknown (hdr : Header) :
  commandCodes !! CommandCode hdr = None →
  CommandName hdr = {| Name := "Unknown"; Abbrev := "?" |}.
Proof. intros Hc. unfold CommandName. rewrite Hc. by case_decide. Qed.

Lemma CommandName_unknown_witness :
  CommandName (mkHeader 1 (0, 0, 20) 128 (0, 1, 16) 16777238 0 0)
    = {| Name := "Unknown"; Abbrev := "?" |}
  ∧ CommandName (mkHeader 1 (0, 0, 20) 0 (0, 1, 16) 16777238 0 0)
    = {| Name := "Unknown"; Abbrev := "?" |}.
Proof.
  split; apply CommandName_unknown; reflexivity.
Defined.

(** ** Message length *)

Lemma mod_wrap_24 a : (a mod 2 ^ 32) mod 2 ^ 24 = a mod 2 ^ 24.
Proof.
  apply Z.mod_mod_divide. exists (2 ^ 8). reflexivity.
Qed.

(** C8. For every header and every payload length [L] (a [uint32]),
    after [SetMessageLength L] the length read back by [MessageLength] is
    20 + L truncated to 24 bits, hence 20 + L itself when that fits, and
    no other field has changed. *)
Theorem SetMessageLength_MessageLength (hdr : Header) (L : Z) :
  is_uint32 L →
  MessageLength (SetMessageLength L hdr) = (20 + L) mod 2 ^ 24
  ∧ (20 + L < 2 ^ 24 → MessageLength (SetMessageLength L hdr) = 20 + L)
  ∧ Version (SetMessageLength L hdr) = Version hdr
  ∧ CommandFlags (SetMessageLength L hdr) = CommandFlags hdr
  ∧ RawCommandCode (SetMessageLength L hdr) = RawCommandCode hdr
  ∧ ApplicationId (SetMessageLength L hdr) = ApplicationId hdr
  ∧ HopByHopId (SetMessageLength L hdr) = HopByHopId hdr
  ∧ EndToEndId (SetMessageLength L hdr) = EndToEndId hdr.
Proof.
  intros HL.
  assert (Hlen : MessageLength (SetMessageLength L hdr) = (20 + L) mod 2 ^ 24).
  { unfold MessageLength, SetMessageLength. cbn [RawMessageLength].
    rewrite uint24To32_uint32To24, Header_Sizeof. unfold uint32_wrap.
    rewrite mod_wrap_24. by rewrite (Z.mod_small 20) by lia. }
  split; [exact Hlen|]. split; [|done].
  intros Hfit. rewrite Hlen. apply Z.mod_small. unfold is_uint32 in HL. lia.
Qed.

Lemma SetMessageLength_MessageLength_witness :
  MessageLength (SetMessageLength 100
    (mkHeader 1 (0, 0, 0) 128 (0, 1, 1) 0 7 9)) = 120
  ∧ MessageLength (SetMessageLength 4294967295
    (mkHeader 1 (0, 0, 0) 128 (0, 1, 1) 0 7 9)) = 19.
Proof.
  split.
  - refine (proj1 (proj2 (SetMessageLength_MessageLength _ 100 _)) _);
      unfold is_uint32; lia.
  - refine (eq_trans (proj1 (SetMessageLength_MessageLength _ 4294967295 _)) _);
      [unfold is_uint32; lia | reflexivity].
Defined.

End HeaderCodec.

(* ===================================================================== *)
(** * Properties of the multiplexer and of the connection *)
(* ===================================================================== *)

Section Server.
Import Srv.

(** ** The monad *)

Lemma load_Some w p mx : muxes w !! p = Some mx → load p w = (Ret mx, w).
Proof. intros Hp. unfold load. by rewrite Hp. Qed.

Lemma World_eta w : mkWorld (muxes w) (trace w) = w.
Proof. by destruct w. Qed.

Lemma init_DefaultServeMux : muxes init_World !! DefaultServeMux = Some new_ServeMux.
Proof. reflexivity. Qed.

(** ** The Request bit *)

Lemma RequestFlag_bit flags :
  Z.land flags RequestFlag = RequestFlag ↔ Z.testbit flags 7 = true.
Proof.
  unfold RequestFlag. change 128 with (Z.shiftl 1 7). split.
  - intros Hl.
    assert (Hb : Z.testbit (Z.land flags (Z.shiftl 1 7)) 7 = true).
    { rewrite Hl. reflexivity. }
    rewrite Z.land_spec in Hb. by apply andb_true_iff in Hb as [Hb _].
  - intros Hb. apply Z.bits_inj'. intros n Hn.
    rewrite Z.land_spec. destruct (decide (n = 7)) as [->|Hne].
    + rewrite Hb. reflexivity.
    + replace (Z.testbit (Z.shiftl 1 7) n) with false; [apply andb_false_r|].
      symmetry. rewrite Z.shiftl_spec by lia.
      destruct (decide (n < 7)); [apply Z.testbit_neg_r; lia|].
      apply (testbit_above 1 1); lia.
Qed.

Lemma dispatch_key_request dcmd flags :
  Z.testbit flags 7 = true → dispatch_key dcmd flags = Short dcmd +:+ "R".
Proof.
  intros Hb. unfold dispatch_key. case_decide as Hl; [done|].
  by apply RequestFlag_bit in Hb.
Qed.

Lemma dispatch_key_answer dcmd flags :
  Z.testbit flags 7 = false → dispatch_key dcmd flags = Short dcmd +:+ "A".
Proof.
  intros Hb. unfold dispatch_key. case_decide as Hl; [|done].
  apply RequestFlag_bit in Hl. congruence.
Qed.

(** ** The error mailbox *)

Lemma new_ServeMux_mailbox_ok : mailbox_ok new_ServeMux.
Proof. split; cbn; lia. Qed.

Lemma try_send_empty {A} (ch : Chan A) v :
  cap ch = 1%nat → buf ch = [] → try_send ch v = mkChan [v] 1.
Proof. intros Hc Hb. unfold try_send. rewrite Hc, Hb. reflexivity. Qed.

Lemma try_send_full {A} (ch : Chan A) v :
  (cap ch ≤ length (buf ch))%nat → try_send ch v = ch.
Proof. intros Hc. unfold try_send. case_decide; [lia|done]. Qed.

Lemma try_send_bound {A} (ch : Chan A) v :
  (length (buf ch) ≤ cap ch)%nat → (length (buf (try_send ch v)) ≤ cap ch)%nat.
Proof.
  intros Hc. unfold try_send. case_decide; [|done].
  cbn. rewrite length_app. cbn. lia.
Qed.

Lemma try_send_one_slot {A} (ch : Chan A) v :
  cap ch = 1%nat → (length (buf ch) ≤ 1)%nat → (length (buf (try_send ch v)) ≤ 1)%nat.
Proof.
  intros Hc Hb. pose proof (try_send_bound ch v) as Hs. rewrite Hc in Hs.
  by apply Hs.
Qed.

Lemma try_send_cap {A} (ch : Chan A) v : cap (try_send ch v) = cap ch.
Proof. unfold try_send. by case_decide. Qed.

(** After a send, a one-slot channel is full. *)
Lemma try_send_fills {A} (ch : Chan A) v :
  cap ch = 1%nat → (cap ch ≤ length (buf (try_send ch v)))%nat.
Proof.
  intros Hc. unfold try_send. case_decide as Hlt; [|lia].
  cbn. rewrite length_app. cbn. lia.
Qed.

Lemma ServeMux_Error_eq w p mx r :
  muxes w !! p = Some mx →
  ServeMux_Error p r w =
    (Ret tt, mkWorld (<[p := mkServeMux (try_send (e mx) r) (m mx)]> (muxes w)) (trace w)).
Proof. intros Hp. unfold ServeMux_Error, bind. by rewrite (load_Some w p mx). Qed.

(** The invariant holds for every multiplexer of the store after a
    submission, if it held before. *)
Lemma ServeMux_Error_mailbox_ok w p r :
  (∀ q mx, muxes w !! q = Some mx → mailbox_ok mx) →
  ∀ q mx, muxes (ServeMux_Error p r w).2 !! q = Some mx → mailbox_ok mx.
Proof.
  intros Hinv q mx. unfold ServeMux_Error, bind, load.
  destruct (muxes w !! p) as [mp|] eqn:Hp; cbn; [|apply Hinv].
  destruct (decide (p = q)) as [->|Hne].
  - rewrite lookup_insert_eq. intros [= <-].
    destruct (Hinv q mp Hp) as [Hc Hb]. split; cbn.
    + by rewrite try_send_cap.
    + by apply try_send_one_slot.
  - rewrite lookup_insert_ne by done. apply Hinv.
Qed.

(** C6. The error mailbox holds at most one report and a submission always
    returns.  For every multiplexer with a one-slot mailbox: a report
    submitted to an empty slot is stored; a report submitted to an occupied
    slot is dropped and leaves the state as it was; the slot never holds
    more than one report; and a second submission right after a first one
    changes nothing, so that from an empty slot two submissions leave
    exactly the first report to be observed. *)
Theorem ServeMux_Error_mailbox (w : World) (p : addr) (mx : ServeMux)
    (r1 r2 : ErrorReport) :
  muxes w !! p = Some mx → mailbox_ok mx →
  (buf (e mx) = [] →
     ServeMux_Error p r1 w =
       (Ret tt, mkWorld (<[p := mkServeMux (mkChan [r1] 1) (m mx)]> (muxes w)) (trace w)))
  ∧ (buf (e mx) ≠ [] → ServeMux_Error p r1 w = (Ret tt, w))
  ∧ (∀ mx', muxes (ServeMux_Error p r1 w).2 !! p = Some mx' →
       (length (buf (e mx')) ≤ 1)%nat)
  ∧ (ServeMux_Error p r1 ;;; ServeMux_Error p r2) w = ServeMux_Error p r1 w
  ∧ (buf (e mx) = [] →
       (ServeMux_Error p r1 ;;; ServeMux_Error p r2 ;;; ServeMux_ErrorReports p) w
       = (Ret (mkChan [r1] 1),
          mkWorld (<[p := mkServeMux (mkChan [r1] 1) (m mx)]> (muxes w)) (trace w))).
Proof.
  intros Hp [Hcap Hlen].
  assert (Hempty : buf (e mx) = [] →
    ServeMux_Error p r1 w =
      (Ret tt, mkWorld (<[p := mkServeMux (mkChan [r1] 1) (m mx)]> (muxes w)) (trace w))).
  { intros Hb. rewrite (ServeMux_Error_eq w p mx) by done.
    by rewrite try_send_empty. }
  assert (Hfull : buf (e mx) ≠ [] → ServeMux_Error p r1 w = (Ret tt, w)).
  { intros Hb. rewrite (ServeMux_Error_eq w p mx) by done.
    rewrite try_send_full.
    - destruct mx as [ch tbl]. cbn. rewrite insert_id by done. by rewrite World_eta.
    - destruct (buf (e mx)); [done|]. cbn. lia. }
  assert (Htwice :
    (ServeMux_Error p r1 ;;; ServeMux_Error p r2) w = ServeMux_Error p r1 w).
  { unfold bind at 1. rewrite (ServeMux_Error_eq w p mx) by done.
    erewrite ServeMux_Error_eq by (cbn; apply lookup_insert_eq).
    cbn. rewrite insert_insert_eq.
    rewrite (try_send_full (try_send (e mx) r1) r2); [done|].
    rewrite try_send_cap. by apply try_send_fills. }
  split; [exact Hempty|]. split; [exact Hfull|]. split; [|split; [exact Htwice|]].
  - intros mx'. rewrite (ServeMux_Error_eq w p mx) by done. cbn.
    rewrite lookup_insert_eq. intros [= <-]. cbn.
    by apply try_send_one_slot.
  - intros Hb.
    unfold bind at 1. rewrite (Hempty Hb).
    unfold bind at 1. erewrite ServeMux_Error_eq by (cbn; apply lookup_insert_eq).
    cbn [e m muxes trace]. rewrite insert_insert_eq.
    rewrite try_send_full by (cbn; lia).
    unfold ServeMux_ErrorReports, bind, load. cbn. by rewrite lookup_insert_eq.
Qed.

Lemma ServeMux_Error_mailbox_witness :
  (ServeMux_Error DefaultServeMux (unhandled 1%nat None) ;;;
   ServeMux_Error DefaultServeMux (unhandled 2%nat None) ;;;
   ServeMux_ErrorReports DefaultServeMux) init_World
  = (Ret (mkChan [unhandled 1%nat None] 1),
     mkWorld (<[DefaultServeMux := mkServeMux (mkChan [unhandled 1%nat None] 1) ∅]>
                (muxes init_World)) []).
Proof.
  refine (proj2 (proj2 (proj2 (proj2
    (ServeMux_Error_mailbox init_World DefaultServeMux new_ServeMux
       (unhandled 1%nat None) (unhandled 2%nat None) _ _)))) _).
  - reflexivity.
  - split; cbn; lia.
  - reflexivity.
Defined.

(** ** Dispatch *)

Lemma ServeMux_serve_with_hit invoke w p mx key c msg entry :
  muxes w !! p = Some mx → m mx !! key = Some entry →
  ServeMux_serve_with invoke p key c msg w = invoke (h entry) c msg w.
Proof.
  intros Hp Hk. unfold ServeMux_serve_with, bind. rewrite (load_Some w p mx) by done.
  by rewrite Hk.
Qed.

Lemma ServeMux_serve_with_miss invoke w p mx key c msg :
  muxes w !! p = Some mx → m mx !! key = None →
  ServeMux_serve_with invoke p key c msg w = ServeMux_Error p (unhandled c msg) w.
Proof.
  intros Hp Hk. unfold ServeMux_serve_with, bind at 1.
  rewrite (load_Some w p mx) by done. by rewrite Hk.
Qed.

(** The dispatcher looks up the key of the message, and only that key. *)
Lemma ServeMux_ServeDIAM_with_key invoke w p mx c msg key :
  muxes w !! p = Some mx → lookup_key msg = Some key →
  ServeMux_ServeDIAM_with invoke p c (Some msg) w
  = ServeMux_serve_with invoke p key c (Some msg) w.
Proof.
  intros Hp Hk. unfold ServeMux_ServeDIAM_with, bind at 1.
  rewrite (load_Some w p mx) by done. unfold lookup_key in Hk.
  destruct (FindCommand _ _ _) as [[dcmd|] [err|]]; by simplify_eq.
Qed.

Lemma ServeMux_serve_hit w p mx key c msg entry :
  muxes w !! p = Some mx → m mx !! key = Some entry →
  ServeMux_serve p key c msg w = call_ServeDIAM (h entry) c msg w.
Proof. apply ServeMux_serve_with_hit. Qed.

Lemma ServeMux_serve_miss w p mx key c msg :
  muxes w !! p = Some mx → m mx !! key = None →
  ServeMux_serve p key c msg w = ServeMux_Error p (unhandled c msg) w.
Proof. apply ServeMux_serve_with_miss. Qed.

Lemma ServeMux_ServeDIAM_key w p mx c msg key :
  muxes w !! p = Some mx → lookup_key msg = Some key →
  ServeMux_ServeDIAM p c (Some msg) w = ServeMux_serve p key c (Some msg) w.
Proof. apply ServeMux_ServeDIAM_with_key. Qed.

(** Through the interface, a handler that is not a multiplexer is the
    user's function, whatever the depth. *)
Lemma Handler_ServeDIAM_user user depth hd c msg :
  (∀ q, hd ≠ ServeMuxPtr q) →
  Handler_ServeDIAM user depth hd c msg = run_ServeDIAM user hd c msg.
Proof. intros Hnm. destruct depth, hd as [f|q|f b]; try done; by destruct (Hnm q). Qed.

Lemma call_user_eq hd c msg w :
  call_user hd c msg w =
    (match completion hd c msg with Returns => Ret tt | Panics v => Panic v end,
     mkWorld (muxes w) (trace w ++ [EvServeDIAM hd c msg])).
Proof. unfold call_user, bind, emit. by destruct (completion hd c msg). Qed.

Lemma call_ServeDIAM_eq hd c msg w :
  (∀ q, hd ≠ ServeMuxPtr q) →
  call_ServeDIAM hd c msg w =
    (match completion hd c msg with Returns => Ret tt | Panics v => Panic v end,
     mkWorld (muxes w) (trace w ++ [EvServeDIAM hd c msg])).
Proof.
  intros Hnm. unfold call_ServeDIAM, invoke_with.
  rewrite Handler_ServeDIAM_user by done. apply call_user_eq.
Qed.

(** C3. Whatever invoking a handler does (user code with effects of its
    own, or another multiplexer), the dispatch of a message that the
    dictionary resolves looks up the short name followed by "R" when the
    Request bit is set and by "A" when it is clear; on a hit it is one
    invocation of the handler found, with the connection and the message,
    in the state the dispatch started from, and nothing more: the
    multiplexer submits no report and changes nothing itself, before or
    after the handler runs.  So for every multiplexer with a handler
    registered under "CCR", a message resolved to "CC" with the Request
    bit set is handed to that handler exactly once and the multiplexer
    sends nothing to the error-report channel. *)
Theorem ServeMux_ServeDIAM_CCR (invoke : Handler → Conn → option Message → M unit)
    (w : World) (p : addr) (mx : ServeMux) (c : Conn)
    (msg : Message) (dcmd : DictCommand) :
  muxes w !! p = Some mx →
  FindCommand (Dictionary msg) (ApplicationID (Header msg)) (CommandCode (Header msg))
    = (Some dcmd, None) →
  ServeMux_ServeDIAM_with invoke p c (Some msg) w =
    match m mx !! (Short dcmd +:+
                   (if Z.testbit (CommandFlags (Header msg)) 7 then "R" else "A")) with
    | Some entry => invoke (h entry) c (Some msg) w
    | None =>
        ServeMux_Error p
          {| er_Conn := c; er_Message := Some msg;
             er_Error := errorString "unhandled message" |} w
    end
  ∧ ∀ entry,
      Short dcmd = "CC" → Z.testbit (CommandFlags (Header msg)) 7 = true →
      m mx !! "CCR" = Some entry →
      ServeMux_ServeDIAM_with invoke p c (Some msg) w = invoke (h entry) c (Some msg) w.
Proof.
  intros Hp Hf.
  assert (Hkey : lookup_key msg =
    Some (Short dcmd +:+ (if Z.testbit (CommandFlags (Header msg)) 7 then "R" else "A"))).
  { unfold lookup_key. rewrite Hf. f_equal.
    destruct (Z.testbit (CommandFlags (Header msg)) 7) eqn:Hb.
    - by apply dispatch_key_request.
    - by apply dispatch_key_answer. }
  rewrite (ServeMux_ServeDIAM_with_key invoke w p mx c msg _ Hp Hkey).
  split.
  - destruct (m mx !! _) as [entry|] eqn:He.
    + by apply (ServeMux_serve_with_hit invoke w p mx).
    + by apply (ServeMux_serve_with_miss invoke w p mx).
  - intros entry Hs Hb He. rewrite Hs, Hb. change ("CC" +:+ "R") with "CCR".
    by apply (ServeMux_serve_with_hit invoke w p mx).
Qed.

Lemma ServeMux_ServeDIAM_CCR_witness :
  ServeMux_ServeDIAM DefaultServeMux 1%nat (Some ccr_msg) ccr_World
  = (Ret tt,
     mkWorld (muxes ccr_World) [EvServeDIAM (HandlerFunc quiet) 1%nat (Some ccr_msg)])
  ∧ ServeMux_ServeDIAM_with
      (λ hd c msg, ServeMux_Error DefaultServeMux (unhandled c msg))
      DefaultServeMux 1%nat (Some ccr_msg) ccr_World
    = ServeMux_Error DefaultServeMux (unhandled 1%nat (Some ccr_msg)) ccr_World.
Proof.
  split.
  - refine (eq_trans (proj2
      (ServeMux_ServeDIAM_CCR call_ServeDIAM ccr_World DefaultServeMux
         (mkServeMux (make_chan ErrorReport 1)
            {[ "CCR" := mkMuxEntry (HandlerFunc quiet) "CCR" ]})
         1%nat ccr_msg (mkDictCommand 272 "CC" "Credit-Control") _ _)
      (mkMuxEntry (HandlerFunc quiet) "CCR") _ _ _) _); reflexivity.
  - refine (proj2
      (ServeMux_ServeDIAM_CCR
         (λ hd c msg, ServeMux_Error DefaultServeMux (unhandled c msg))
         ccr_World DefaultServeMux
         (mkServeMux (make_chan ErrorReport 1)
            {[ "CCR" := mkMuxEntry (HandlerFunc quiet) "CCR" ]})
         1%nat ccr_msg (mkDictCommand 272 "CC" "Credit-Control") _ _)
      (mkMuxEntry (HandlerFunc quiet) "CCR") _ _ _); reflexivity.
Defined.

(** C4. For every multiplexer with no handler under the key of the
    message and none under "ALL", the dispatch submits exactly one report
    to the error mailbox: the report names the connection and the message
    and its error text is "unhandled message".  The dispatch returns, the
    trace is unchanged (no handler is invoked, nothing is written to the
    connection) and the entry table is unchanged. *)
Theorem ServeMux_ServeDIAM_unhandled (w : World) (p : addr) (mx : ServeMux)
    (c : Conn) (msg : Message) (key : string) :
  muxes w !! p = Some mx →
  lookup_key msg = Some key →
  m mx !! key = None →
  m mx !! "ALL" = None →
  ServeMux_ServeDIAM p c (Some msg) w =
    ServeMux_Error p
      {| er_Conn := c; er_Message := Some msg;
         er_Error := errorString "unhandled message" |} w
  ∧ ServeMux_ServeDIAM p c (Some msg) w =
      (Ret tt,
       mkWorld
         (<[p := mkServeMux
                   (try_send (e mx)
                      {| er_Conn := c; er_Message := Some msg;
                         er_Error := errorString "unhandled message" |})
                   (m mx)]> (muxes w))
         (trace w)).
Proof.
  intros Hp Hk Hmiss _.
  rewrite (ServeMux_ServeDIAM_key w p mx c msg key) by done.
  rewrite (ServeMux_serve_miss w p mx) by done.
  split; [done|]. by apply ServeMux_Error_eq.
Qed.

Lemma ServeMux_ServeDIAM_unhandled_witness :
  ServeMux_ServeDIAM DefaultServeMux 1%nat (Some cca_msg) ccr_World
  = (Ret tt,
     mkWorld
       (<[DefaultServeMux :=
            mkServeMux
              (mkChan [mkErrorReport 1%nat (Some cca_msg) (errorString "unhandled message")] 1)
              {[ "CCR" := mkMuxEntry (HandlerFunc quiet) "CCR" ]}]> (muxes ccr_World))
       []).
Proof.
  refine (eq_trans (proj2
    (ServeMux_ServeDIAM_unhandled ccr_World DefaultServeMux
       (mkServeMux (make_chan ErrorReport 1)
          {[ "CCR" := mkMuxEntry (HandlerFunc quiet) "CCR" ]})
       1%nat cca_msg "CCA" _ _ _ _)) _); reflexivity.
Defined.

(** ** Registration *)

Lemma ServeMux_Handle_stores w p mx key hd :
  muxes w !! p = Some mx → ¬ nil_map mx →
  ServeMux_Handle p key (Some hd) w =
    (Ret tt,
     mkWorld (<[p := mkServeMux (e mx) (<[key := mkMuxEntry hd key]> (m mx))]> (muxes w))
       (trace w)).
Proof.
  intros Hp Hz. unfold ServeMux_Handle, bind. rewrite (load_Some w p mx) by done.
  by case_decide.
Qed.

(** On the zero value, [Handle] with a handler panics on the nil map and
    registers nothing. *)
Lemma ServeMux_Handle_nil_map w p mx key hd :
  muxes w !! p = Some mx → nil_map mx →
  ServeMux_Handle p key (Some hd) w = (Panic "assignment to entry in nil map", w).
Proof.
  intros Hp Hz. unfold ServeMux_Handle, bind. rewrite (load_Some w p mx) by done.
  by case_decide.
Qed.

Lemma mailbox_ok_not_nil_map mx : mailbox_ok mx → ¬ nil_map mx.
Proof. intros [Hc _]. unfold nil_map. lia. Qed.

(** C9. For every multiplexer and every key, registering a nil handler
    panics at once with "DIAM: nil handler", and the state after the panic
    is the state before the call: the entry table is untouched, no handler
    is removed or replaced. *)
Theorem ServeMux_Handle_nil (w : World) (p : addr) (mx : ServeMux) (key : string) :
  muxes w !! p = Some mx →
  ServeMux_Handle p key None w = (Panic "DIAM: nil handler", w)
  ∧ muxes (ServeMux_Handle p key None w).2 !! p = Some mx.
Proof.
  intros Hp. unfold ServeMux_Handle, bind. rewrite (load_Some w p mx) by done.
  by split.
Qed.

Lemma ServeMux_Handle_nil_witness :
  ServeMux_Handle DefaultServeMux "CCR" None ccr_World
    = (Panic "DIAM: nil handler", ccr_World).
Proof.
  refine (proj1
    (ServeMux_Handle_nil ccr_World DefaultServeMux
       (mkServeMux (make_chan ErrorReport 1)
          {[ "CCR" := mkMuxEntry (HandlerFunc quiet) "CCR" ]}) "CCR" _)).
  reflexivity.
Defined.

(** ** The serving loop *)

Lemma conn_readMessage_eq c res w :
  conn_readMessage c res w =
    (Ret (match res.2 with Some err => (None, Some err) | None => (res.1, None) end),
     mkWorld (muxes w)
       (trace w ++ (if decide (ReadTimeout (server c) > 0)
                    then [EvSetReadDeadline (fd (rwc c))] else []))).
Proof.
  unfold conn_readMessage, bind, emit, ret. destruct res as [msg [err|]];
    case_decide; cbn; rewrite ?app_nil_r, ?World_eta; done.
Qed.

(** A failed read ends the loop: the socket is closed, the error is
    reported unless it is one of the two end-of-stream errors, and what is
    left of the stream is not read. *)
Lemma serve_loop_failed c w msg err rest :
  serve_loop c ((msg, Some err) :: rest) w =
    if decide (err ≠ io_EOF ∧ err ≠ io_ErrUnexpectedEOF)
    then report_error (active_handler (server c))
           (mkErrorReport (writer c) None err) (failed_turn c w)
    else (Ret tt, failed_turn c w).
Proof.
  unfold serve_loop. cbn [serve_loop_with]. unfold serve_iteration_with, bind at 1.
  rewrite conn_readMessage_eq. cbn [fst snd].
  unfold read_failed_with, bind, emit, failed_turn. cbn [muxes trace].
  rewrite <- app_assoc. by case_decide.
Qed.

(** C5, as stated, fails: an unexpected end of stream (the stream stops
    in the middle of a message) is not a clean end of stream, the default
    multiplexer implements the error-reporting capability, and yet nothing
    is reported: the mailbox, empty before, is still empty. *)
Lemma serve_loop_report_counterexample :
  ¬ (∀ (c : conn) (w : World) (p : addr) (mx : ServeMux) (err : error)
       (rest : list ReadResult),
       active_handler (server c) = ServeMuxPtr p →
       muxes w !! p = Some mx → mailbox_ok mx → buf (e mx) = [] →
       err ≠ io_EOF →
       ∃ mx', muxes (serve_loop c ((None, Some err) :: rest) w).2 !! p = Some mx'
              ∧ buf (e mx') = [mkErrorReport (writer c) None err]).
Proof.
  intros Hclaim.
  destruct (Hclaim sample_conn init_World DefaultServeMux new_ServeMux
              io_ErrUnexpectedEOF [] eq_refl eq_refl new_ServeMux_mailbox_ok eq_refl
              ltac:(done)) as (mx' & Hmx & Hbuf).
  vm_compute in Hmx. injection Hmx as <-. discriminate Hbuf.
Qed.

(** C5, amended. In the serving loop, every read or decode failure closes
    the socket and ends the loop (the rest of the stream is not read).  If
    the error is neither [io.EOF] nor [io.ErrUnexpectedEOF] and the active
    handler implements the error-reporting capability, exactly one report
    is submitted to it, carrying this connection, a nil message and the
    error: to the mailbox of a multiplexer, or to the [Error] method of a
    user handler.  [io.EOF] and [io.ErrUnexpectedEOF] are never reported,
    and nothing is reported when the handler has no such capability. *)
Theorem serve_loop_read_failure (c : conn) (w : World) (msg : option Message)
    (err : error) (rest : list ReadResult) :
  (err = io_EOF ∨ err = io_ErrUnexpectedEOF →
     serve_loop c ((msg, Some err) :: rest) w = (Ret tt, failed_turn c w))
  ∧ (implements_ErrorReporter (active_handler (server c)) = false →
     serve_loop c ((msg, Some err) :: rest) w = (Ret tt, failed_turn c w))
  ∧ (err ≠ io_EOF → err ≠ io_ErrUnexpectedEOF →
     ∀ p, active_handler (server c) = ServeMuxPtr p →
       serve_loop c ((msg, Some err) :: rest) w =
         ServeMux_Error p (mkErrorReport (writer c) None err) (failed_turn c w))
  ∧ (err ≠ io_EOF → err ≠ io_ErrUnexpectedEOF →
     ∀ f, active_handler (server c) = UserHandler f true →
       serve_loop c ((msg, Some err) :: rest) w =
         (Ret tt,
          mkWorld (muxes w)
            (trace (failed_turn c w)
             ++ [EvError (UserHandler f true) (mkErrorReport (writer c) None err)]))).
Proof.
  rewrite serve_loop_failed. repeat split.
  - intros Herr. case_decide as Hd; [|done]. destruct Hd, Herr; congruence.
  - intros Hno. case_decide; [|done].
    destruct (active_handler (server c)) as [f|q|f [|]]; done.
  - intros H1 H2 q Hq. case_decide as Hd; [|tauto]. by rewrite Hq.
  - intros H1 H2 f Hf. case_decide as Hd; [|tauto]. by rewrite Hf.
Qed.

Lemma serve_loop_read_failure_witness :
  serve_loop sample_conn [(None, Some (opError "connection reset")); (Some ccr_msg, None)]
    init_World
  = (Ret tt,
     mkWorld
       (<[DefaultServeMux :=
            mkServeMux
              (mkChan [mkErrorReport 1%nat None (opError "connection reset")] 1) ∅]>
          (muxes init_World))
       [EvClose 7])
  ∧ serve_loop sample_conn [(None, Some io_EOF); (Some ccr_msg, None)] init_World
    = (Ret tt, mkWorld (muxes init_World) [EvClose 7]).
Proof.
  split.
  - refine (eq_trans
      (proj1 (proj2 (proj2
        (serve_loop_read_failure sample_conn init_World None
           (opError "connection reset") [(Some ccr_msg, None)])))
        _ _ DefaultServeMux _) _); done.
  - refine (eq_trans
      (proj1 (serve_loop_read_failure sample_conn init_World None io_EOF
                [(Some ccr_msg, None)]) _) _); [by left|done].
Defined.

(** Whatever happens in the loop, [conn.serve] returns and its last act is
    to close the socket. *)
Lemma conn_serve_closes c inbox w :
  ∃ tr, conn_serve c inbox w =
          (Ret tt, mkWorld (muxes (conn_serve c inbox w).2) (tr ++ [EvClose (fd (rwc c))])).
Proof.
  unfold conn_serve, conn_serve_with, defer_recover.
  destruct (match tls_handshake (rwc c) with
            | Some (Some _) => ret tt
            | Some None => emit (EvTLSState (fd (rwc c))) ;;; serve_loop_with recorded c inbox
            | None => serve_loop_with recorded c inbox
            end w) as [[[]|v] w'].
  - exists (trace w'). reflexivity.
  - eexists. reflexivity.
Qed.

(** ** The write path *)

(** The turn bound of the sample buffered writer is never reached: three
    turns suffice (fill and flush, direct write, final copy), so more fuel
    changes nothing. *)
Lemma bufio_Write_loop_err k p nn b err :
  bw_err b = Some err →
  bufio_Write_loop (S k) p nn b = (Z.of_nat nn, Some err, b).
Proof. intros He. cbn. rewrite He. by case_decide. Qed.

Lemma bufio_Write_loop_fits k p nn b :
  (length p ≤ bufio_Available b)%nat →
  bufio_Write_loop (S k) p nn b = bufio_Write_loop 1 p nn b.
Proof. intros Hfit. cbn. case_decide; [lia|done]. Qed.

Lemma bufio_Write_loop_S f p nn b :
  bufio_Write_loop (S f) p nn b =
  ltac:(let t := eval cbn [bufio_Write_loop] in (bufio_Write_loop (S f) p nn b) in
        exact t).
Proof. reflexivity. Qed.

Lemma bufio_Write_loop_empty k p nn b :
  bw_err b = None → bw_buf b = [] →
  bufio_Write_loop (S (S k)) p nn b = bufio_Write_loop 2 p nn b.
Proof.
  intros He Hb.
  rewrite (bufio_Write_loop_S (S k)), (bufio_Write_loop_S 1). rewrite He, Hb.
  case_decide; [|done].
  unfold Sink_Write. case_decide.
  - rewrite drop_all.
    by rewrite (bufio_Write_loop_fits k []) by (cbn; lia).
  - by rewrite !(bufio_Write_loop_err _ _ _ _ (fault (bw_wr b))).
Qed.

Lemma bufio_Write_loop_stable k p nn b :
  bufio_Write_loop (3 + k) p nn b = bufio_Write_loop 3 p nn b.
Proof.
  change (3 + k)%nat with (S (S (S k))).
  destruct (bw_err b) as [err|] eqn:He.
  { by rewrite !(bufio_Write_loop_err _ _ _ _ err). }
  destruct (bw_buf b) as [|x buf'] eqn:Hb.
  { rewrite (bufio_Write_loop_empty (S k) p nn b He Hb).
    by rewrite (bufio_Write_loop_empty 1 p nn b He Hb). }
  rewrite (bufio_Write_loop_S (S (S k))), (bufio_Write_loop_S 2). rewrite He, Hb.
  case_decide; [|done].
  unfold bufio_Flush. cbn [bw_err bw_buf bw_size bw_wr].
  destruct (_ ++ _) as [|y l] eqn:Hl; [done|]. rewrite <- Hl.
  destruct (Sink_Write _ _) as [[n [err|]] wr].
  - by rewrite !(bufio_Write_loop_err _ _ _ _ err).
  - by rewrite (bufio_Write_loop_empty k).
Qed.

(** C10. Whenever the write path returns an error, from the buffered write
    or from the flush, the byte count it returns is 0; a count other than 0
    comes only with a nil error.  This holds for every buffered writer. *)
Theorem response_Write_error_count `{BufWriter W} (c : conn) (b : list Z)
    (st : W * list Event) :
  ((response_Write c b st).1.2 ≠ None → (response_Write c b st).1.1 = 0)
  ∧ ((response_Write c b st).1.1 ≠ 0 → (response_Write c b st).1.2 = None).
Proof.
  unfold response_Write. destruct st as [bw tr].
  destruct (Writer_Write b bw) as [[n [err|]] bw']; cbn; [by split|].
  destruct (Writer_Flush bw') as [[err|] bw'']; cbn; by split.
Qed.

Lemma response_Write_error_count_witness :
  (response_Write sample_conn [1; 2; 3; 4; 5; 6]
     (mkBufio None [] 4 (mkSink [] 4 (opError "broken pipe")), [])).1.1 = 0.
Proof.
  refine (proj1
    (response_Write_error_count sample_conn [1; 2; 3; 4; 5; 6]
       (mkBufio None [] 4 (mkSink [] 4 (opError "broken pipe")), [])) _).
  discriminate.
Defined.

(** ** The mailbox invariant over the whole server *)

Lemma preserves_ret {A} (a : A) : preserves (ret a).
Proof. by intros w Hw. Qed.

Lemma preserves_panic {A} v : preserves (@panic A v).
Proof. by intros w Hw. Qed.

Lemma preserves_emit ev : preserves (emit ev).
Proof. by intros w Hw. Qed.

Lemma preserves_bind {A B} (x : M A) (k : A → M B) :
  preserves x → (∀ a, preserves (k a)) → preserves (bind x k).
Proof.
  intros Hx Hk w Hw. unfold bind. specialize (Hx w Hw).
  destruct (x w) as [[a|v] w']; [by apply Hk|done].
Qed.

Lemma preserves_load_bind {B} p (k : ServeMux → M B) :
  (∀ mx, mailbox_ok mx → preserves (k mx)) → preserves (bind (load p) k).
Proof.
  intros Hk w Hw. unfold bind, load.
  destruct (muxes w !! p) as [mx|] eqn:Hp; [|done].
  apply Hk; [by apply (Hw p)|done].
Qed.

Lemma preserves_store p mx : mailbox_ok mx → preserves (store p mx).
Proof.
  intros Hmx w Hw q mq. cbn. destruct (decide (p = q)) as [->|Hne].
  - rewrite lookup_insert_eq. by intros [= <-].
  - rewrite lookup_insert_ne by done. apply Hw.
Qed.

Create HintDb preserves.
#[local] Hint Resolve preserves_ret preserves_panic preserves_emit
  preserves_bind preserves_load_bind preserves_store : preserves.

Lemma init_World_ok : World_ok init_World.
Proof.
  intros q mx. unfold init_World, NewServeMux. cbn.
  intros Hq. apply lookup_insert_Some in Hq as [[_ <-]|[_ Hq]]; [|done].
  apply new_ServeMux_mailbox_ok.
Qed.

Lemma NewServeMux_preserves : preserves NewServeMux.
Proof.
  intros w Hw q mx. unfold NewServeMux. cbn.
  intros Hq. apply lookup_insert_Some in Hq as [[_ <-]|[_ Hq]].
  - apply new_ServeMux_mailbox_ok.
  - by apply (Hw q).
Qed.

Lemma ServeMux_Error_preserves p r : preserves (ServeMux_Error p r).
Proof.
  unfold ServeMux_Error. apply preserves_load_bind. intros mx [Hc Hb].
  apply preserves_store. split; cbn.
  - by rewrite try_send_cap.
  - by apply try_send_one_slot.
Qed.

Lemma ServeMux_Handle_preserves p key hd : preserves (ServeMux_Handle p key hd).
Proof.
  unfold ServeMux_Handle. apply preserves_load_bind. intros mx Hmx.
  destruct hd; [|auto with preserves]. case_decide; auto with preserves.
Qed.

Lemma ServeMux_serve_with_preserves invoke p key c msg :
  (∀ hd c msg, preserves (invoke hd c msg)) →
  preserves (ServeMux_serve_with invoke p key c msg).
Proof.
  intros Hi. unfold ServeMux_serve_with. apply preserves_load_bind. intros mx _.
  destruct (m mx !! key); [apply Hi|apply ServeMux_Error_preserves].
Qed.

Lemma ServeMux_ServeDIAM_with_preserves invoke p c msg :
  (∀ hd c msg, preserves (invoke hd c msg)) →
  preserves (ServeMux_ServeDIAM_with invoke p c msg).
Proof.
  intros Hi. unfold ServeMux_ServeDIAM_with. apply preserves_load_bind. intros _ _.
  destruct msg as [msg|]; [|auto with preserves].
  destruct (FindCommand _ _ _) as [[dcmd|] [err|]];
    auto using ServeMux_serve_with_preserves with preserves.
Qed.

(** The invariant is kept by the server whatever the user code does, as
    long as the user code keeps it. *)
Section UserCodePreserves.
Variable user : UserCode.
Hypothesis user_ServeDIAM : ∀ hd c msg, preserves (run_ServeDIAM user hd c msg).
Hypothesis user_Error : ∀ hd r, preserves (run_Error user hd r).

Lemma Handler_ServeDIAM_preserves depth hd c msg :
  preserves (Handler_ServeDIAM user depth hd c msg).
Proof.
  revert hd c msg. induction depth as [|depth IH]; intros [f|q|f b] c msg; cbn;
    auto using ServeMux_ServeDIAM_with_preserves with preserves.
Qed.

Lemma invoke_with_preserves hd c msg : preserves (invoke_with user hd c msg).
Proof. intros w Hw. unfold invoke_with. by apply Handler_ServeDIAM_preserves. Qed.

Lemma report_error_with_preserves hd r : preserves (report_error_with user hd r).
Proof.
  destruct hd as [f|p|f [|]]; cbn; auto using ServeMux_Error_preserves with preserves.
Qed.

Lemma serve_iteration_with_preserves c res k :
  preserves k → preserves (serve_iteration_with user c res k).
Proof.
  intros Hk. unfold serve_iteration_with. apply preserves_bind.
  - unfold conn_readMessage. apply preserves_bind.
    + case_decide; auto with preserves.
    + intros _. destruct res as [msg [err|]]; auto with preserves.
  - intros r. destruct r.2 as [err|].
    + unfold read_failed_with. apply preserves_bind; [auto with preserves|].
      intros _. case_decide; auto using report_error_with_preserves with preserves.
    + apply preserves_bind; [|done].
      unfold serverHandler_ServeDIAM_with.
      destruct (active_handler (server c));
        auto using ServeMux_ServeDIAM_with_preserves, invoke_with_preserves.
Qed.

(** By induction on the stream: however many messages are served, every
    mailbox of the store still has one slot and at most one report. *)
Lemma serve_loop_with_preserves c inbox : preserves (serve_loop_with user c inbox).
Proof.
  induction inbox as [|res rest IH]; cbn [serve_loop_with];
    apply serve_iteration_with_preserves; auto with preserves.
Qed.

Lemma conn_serve_with_preserves c inbox : preserves (conn_serve_with user c inbox).
Proof.
  intros w Hw. unfold conn_serve_with, defer_recover.
  assert (Hbody : preserves
    (match tls_handshake (rwc c) with
     | Some (Some _) => ret tt
     | Some None => emit (EvTLSState (fd (rwc c))) ;;; serve_loop_with user c inbox
     | None => serve_loop_with user c inbox
     end)).
  { destruct (tls_handshake (rwc c)) as [[err|]|];
      auto using serve_loop_with_preserves with preserves. }
  specialize (Hbody w Hw).
  destruct (match tls_handshake (rwc c) with
            | Some (Some _) => ret tt
            | Some None => emit (EvTLSState (fd (rwc c))) ;;; serve_loop_with user c inbox
            | None => serve_loop_with user c inbox
            end w) as [[[]|v] w']; exact Hbody.
Qed.

End UserCodePreserves.

Lemma call_user_preserves hd c msg : preserves (call_user hd c msg).
Proof.
  unfold call_user. apply preserves_bind; [auto with preserves|].
  intros _. destruct (completion hd c msg); auto with preserves.
Qed.

Lemma conn_serve_preserves c inbox : preserves (conn_serve c inbox).
Proof.
  apply conn_serve_with_preserves.
  - apply call_user_preserves.
  - intros hd r. apply preserves_emit.
Qed.

(** ** Worked examples *)

Example CommandName_CER :
  Hdr.CommandName (Hdr.mkHeader 1 (0, 0, 20) 128 (0, 1, 1) 0 0 0)
  = Hdr.mkCommand "Capabilities-Exchange-Request" "CER".
Proof. reflexivity. Qed.

Example CommandName_CEA :
  Hdr.CommandName (Hdr.mkHeader 1 (0, 0, 20) 0 (0, 1, 1) 0 0 0)
  = Hdr.mkCommand "Capabilities-Exchange-Answer" "CEA".
Proof. reflexivity. Qed.

(** A header cut short is an unexpected end of stream, not a clean one. *)
Example ReadHeader_truncated :
  Hdr.ReadHeader truncated_header
  = (None, Some io_ErrUnexpectedEOF, mkReader [] io_EOF).
Proof. reflexivity. Qed.

Example ReadHeader_empty :
  Hdr.ReadHeader (mkReader [] io_EOF) = (None, Some io_EOF, mkReader [] io_EOF).
Proof. reflexivity. Qed.

(** A message the dictionary does not know goes to "ALL"; with nothing
    registered there it is reported. *)
Example ServeDIAM_unknown_command :
  ServeMux_ServeDIAM DefaultServeMux 1%nat (Some cer_msg) ccr_World
  = ServeMux_Error DefaultServeMux (unhandled 1%nat (Some cer_msg)) ccr_World.
Proof. reflexivity. Qed.

(** A whole connection: one request served, then the peer resets. *)
Example conn_serve_run :
  (conn_serve sample_conn
     [(Some ccr_msg, None); (None, Some (opError "connection reset"))] ccr_World).1
  = Ret tt
  ∧ trace (conn_serve sample_conn
     [(Some ccr_msg, None); (None, Some (opError "connection reset"))] ccr_World).2
  = [EvServeDIAM (HandlerFunc quiet) 1%nat (Some ccr_msg); EvClose 7; EvClose 7].
Proof. split; reflexivity. Qed.

(** A multiplexer registered as a handler is run: the message it has no
    handler for is reported in its own mailbox, and the mailbox of the
    multiplexer that called it stays empty. *)
Example ServeDIAM_nested_multiplexer :
  ServeMux_ServeDIAM DefaultServeMux 1%nat (Some ccr_msg) nested_World
  = ServeMux_Error inner_mux (unhandled 1%nat (Some ccr_msg)) nested_World
  ∧ (e <$> muxes (ServeMux_ServeDIAM DefaultServeMux 1%nat (Some ccr_msg) nested_World).2
             !! inner_mux)
    = Some (mkChan [unhandled 1%nat (Some ccr_msg)] 1)
  ∧ (e <$> muxes (ServeMux_ServeDIAM DefaultServeMux 1%nat (Some ccr_msg) nested_World).2
             !! DefaultServeMux)
    = Some (mkChan [] 1).
Proof. repeat split; reflexivity. Qed.

(** A multiplexer registered under the key it dispatches to calls itself
    without end. *)
Example ServeDIAM_self_registered :
  ServeMux_ServeDIAM DefaultServeMux 1%nat (Some ccr_msg) looping_World
  = (Panic stack_overflow, looping_World).
Proof. reflexivity. Qed.

(** On the zero value of [ServeMux], registering panics, and a message is
    not handled and its report is dropped. *)
Example Handle_zero_value :
  ServeMux_Handle inner_mux "CCR" (Some (HandlerFunc quiet)) zero_World
  = (Panic "assignment to entry in nil map", zero_World)
  ∧ ServeMux_ServeDIAM inner_mux 1%nat (Some ccr_msg) zero_World = (Ret tt, zero_World).
Proof. split; reflexivity. Qed.

End Server.

(* ===================================================================== *)
(** * Further properties of the header codec *)
(* ===================================================================== *)

Section HeaderDecoding.
Import Hdr.

Lemma testbit_shiftl_byte b k n :
  is_uint8 b → 0 ≤ k → k + 8 ≤ n → Z.testbit (Z.shiftl b k) n = false.
Proof.
  intros Hb Hk Hn. rewrite Z.shiftl_spec by lia.
  apply (testbit_above b 8); [exact Hb|lia].
Qed.

Lemma BigEndian_Uint32_bound b0 b1 b2 b3 :
  is_uint8 b0 → is_uint8 b1 → is_uint8 b2 → is_uint8 b3 →
  is_uint32 (BigEndian_Uint32 b0 b1 b2 b3).
Proof.
  intros H0 H1 H2 H3. unfold is_uint32, BigEndian_Uint32.
  set (x := Z.lor _ _).
  assert (Hnn : 0 ≤ x).
  { unfold x. rewrite !Z.lor_nonneg, !Z.shiftl_nonneg. unfold is_uint8 in *. lia. }
  assert (Hmod : x mod 2 ^ 32 = x).
  { apply Z.bits_inj'. intros n Hn.
    destruct (decide (n < 32)) as [Hlt|Hge].
    - by rewrite Z.mod_pow2_bits_low by lia.
    - rewrite Z.mod_pow2_bits_high by lia. symmetry. unfold x.
      rewrite !Z.lor_spec, !testbit_shiftl_byte by (done || lia).
      rewrite (testbit_above b3 8 n) by (done || lia). reflexivity. }
  rewrite <- Hmod. apply Z.mod_pos_bound. lia.
Qed.

Lemma decode_Header_wf bs :
  Forall is_uint8 bs → wf_Header (decode_Header bs).
Proof.
  intros Hbs.
  assert (Hnth : ∀ i, is_uint8 (nth i bs 0)).
  { intros i. destruct (decide (i < length bs)%nat) as [Hi|Hi].
    - rewrite Forall_forall in Hbs. apply Hbs. apply list_elem_of_In, nth_In. lia.
    - rewrite nth_overflow by lia. unfold is_uint8. lia. }
  split; cbn; repeat split; try apply Hnth; apply BigEndian_Uint32_bound; apply Hnth.
Qed.

Lemma ReadHeader_Some_decode r h :
  (ReadHeader r).1.1 = Some h → h = decode_Header (take 20 (pending r)).
Proof.
  destruct (decide (20 ≤ length (pending r))%nat) as [Hlen|Hlen].
  - rewrite ReadHeader_full by done. cbn zeta. case_decide; cbn; [done|].
    by intros [= <-].
  - by rewrite ReadHeader_short by lia.
Qed.

(** X1. [ReadHeader] returns a header exactly when the stream holds at
    least 20 bytes and starts with the byte 1, and the header is the
    big-endian reading of those 20 bytes. *)
Theorem ReadHeader_Some_iff (r : Reader) (h : Header) :
  (ReadHeader r).1.1 = Some h
  ↔ (20 ≤ length (pending r))%nat ∧ nth 0 (pending r) 0 = 1
    ∧ h = decode_Header (take 20 (pending r)).
Proof.
  destruct (decide (20 ≤ length (pending r))%nat) as [Hlen|Hlen].
  - rewrite ReadHeader_full by done. cbn zeta.
    assert (Hv : Version (decode_Header (take 20 (pending r))) = nth 0 (pending r) 0).
    { destruct (pending r) as [|b bs]; [cbn in Hlen; lia|reflexivity]. }
    rewrite Hv. case_decide; cbn; split.
    + done.
    + intros (_ & Hb & _). done.
    + intros [= <-]. split; [done|]. split; [|done].
      destruct (decide (nth 0 (pending r) 0 = 1)); [done|tauto].
    + by intros (_ & _ & ->).
  - rewrite ReadHeader_short by lia. cbn. split; [done|]. intros (? & _). lia.
Qed.

(** X2. [ReadHeader] returns either a header or an error, never both and
    never neither.  When the stream holds 20 bytes or more the reader is
    left exactly 20 bytes further, also when the header is rejected for
    its version; when it holds fewer, every byte has been consumed. *)
Theorem ReadHeader_consumes (r : Reader) :
  ((ReadHeader r).1.1 = None ↔ (ReadHeader r).1.2 ≠ None)
  ∧ ((20 ≤ length (pending r))%nat →
       (ReadHeader r).2 = mkReader (drop 20 (pending r)) (final r))
  ∧ ((length (pending r) < 20)%nat → (ReadHeader r).2 = mkReader [] (final r)).
Proof.
  destruct (decide (20 ≤ length (pending r))%nat) as [Hlen|Hlen].
  - rewrite ReadHeader_full by done. cbn zeta.
    case_decide; cbn; (split; [done|]); split; (done || (intros; lia)).
  - rewrite ReadHeader_short by lia. cbn.
    split; [done|]. split; [intros; lia|done].
Qed.

(** X3. A header read from a stream of bytes is well formed: its byte
    fields are below 256 and its three identifiers below 2^32. *)
Theorem ReadHeader_wf (r : Reader) (h : Header) :
  Forall is_uint8 (pending r) → (ReadHeader r).1.1 = Some h → wf_Header h.
Proof.
  intros Hbs Hh. apply ReadHeader_Some_decode in Hh as ->.
  apply decode_Header_wf. by apply Forall_take.
Qed.

Lemma ReadHeader_wf_witness :
  wf_Header (mkHeader 1 (0, 0, 20) 128 (0, 1, 16) 16777238 7 4294967295).
Proof.
  apply (ReadHeader_wf
    (mkReader [1; 0; 0; 20; 128; 0; 1; 16; 1; 0; 0; 22; 0; 0; 0; 7; 255; 255; 255; 255; 9]
       io_EOF)).
  - cbn. repeat (apply Forall_cons; split; [unfold is_uint8; lia|]). apply Forall_nil_2.
  - reflexivity.
Defined.

(** X4. With fewer than 20 bytes left no header is returned, whatever the
    first byte.  At an orderly end of stream the error is [io.EOF] when
    nothing was left and [io.ErrUnexpectedEOF] when one to nineteen bytes
    were; any other error of the reader is passed on unchanged. *)
Theorem ReadHeader_short_stream (r : Reader) :
  (length (pending r) < 20)%nat →
  (ReadHeader r).1.1 = None
  ∧ (final r = io_EOF → pending r = [] → (ReadHeader r).1.2 = Some io_EOF)
  ∧ (final r = io_EOF → pending r ≠ [] → (ReadHeader r).1.2 = Some io_ErrUnexpectedEOF)
  ∧ (final r ≠ io_EOF → (ReadHeader r).1.2 = Some (final r)).
Proof.
  intros Hlen. rewrite ReadHeader_short by done. cbn.
  split; [done|]. split; [|split].
  - by intros -> ->.
  - intros ->. by destruct (pending r).
  - intros Hne. by destruct (final r), (pending r).
Qed.

Lemma ReadHeader_short_stream_witness :
  (ReadHeader (mkReader [1; 0; 0; 20] io_EOF)).1.2 = Some io_ErrUnexpectedEOF
  ∧ (ReadHeader (mkReader [1; 0; 0; 20] (opError "connection reset"))).1.2
    = Some (opError "connection reset").
Proof.
  split.
  - refine (proj1 (proj2 (proj2
      (ReadHeader_short_stream (mkReader [1; 0; 0; 20] io_EOF) _))) _ _);
      [cbn; lia|done|done].
  - refine (proj2 (proj2 (proj2
      (ReadHeader_short_stream (mkReader [1; 0; 0; 20] (opError "connection reset")) _))) _);
      [cbn; lia|done].
Defined.

(** ** Command names *)

Lemma commandCodes_None code :
  commandCodes !! code = None
  ↔ code ∉ [274; 271; 257; 280; 282; 258; 275].
Proof.
  unfold commandCodes. rewrite <- not_elem_of_list_to_map. cbn [fmap list_fmap fst].
  done.
Qed.

(** X5. [CommandName] answers [{"Unknown", "?"}] exactly for the command
    codes other than 257, 258, 271, 274, 275, 280 and 282. *)
Theorem CommandName_Unknown_iff (hdr : Header) :
  CommandName hdr = {| Name := "Unknown"; Abbrev := "?" |}
  ↔ CommandCode hdr ∉ [274; 271; 257; 280; 282; 258; 275].
Proof.
  rewrite <- commandCodes_None. split.
  - intros Hn. destruct (commandCodes !! CommandCode hdr) as [cmd|] eqn:Hc; [|done].
    rewrite (CommandName_known hdr cmd Hc) in Hn.
    assert (Hcmd : cmd ∈ (map_to_list commandCodes).*2).
    { apply list_elem_of_fmap. exists (CommandCode hdr, cmd). split; [done|].
      by apply elem_of_map_to_list. }
    exfalso. revert Hcmd Hn. generalize (Z.land (CommandFlags hdr) 128).
    intros z Hcmd. vm_compute in Hcmd.
    repeat (apply elem_of_cons in Hcmd as [->|Hcmd]; [case_decide; discriminate|]).
    by apply elem_of_nil in Hcmd.
  - intros Hc. unfold CommandName. rewrite Hc. by case_decide.
Qed.

End HeaderDecoding.

(* ===================================================================== *)
(** * Further properties of the multiplexer *)
(* ===================================================================== *)

Section Registration.
Import Srv.

Lemma land_128_cases flags : Z.land flags 128 = 0 ∨ Z.land flags 128 = 128.
Proof.
  destruct (Z.testbit flags 7) eqn:Hb.
  - right. by apply (RequestFlag_bit flags).
  - left. apply Z.bits_inj'. intros n Hn. rewrite Z.land_spec, Z.bits_0.
    destruct (decide (n = 7)) as [->|Hne]; [by rewrite Hb|].
    change 128 with (Z.shiftl 1 7). rewrite Z.shiftl_spec by lia.
    destruct (decide (n < 7)).
    + rewrite (Z.testbit_neg_r 1) by lia. apply andb_false_r.
    + rewrite (testbit_above 1 1) by lia. apply andb_false_r.
Qed.

(** X6. The header formatter and the multiplexer agree on what a Request
    is: for a command whose abbreviation in the static table is the short
    name the dictionary gives, the abbreviation printed by [CommandName]
    is the key [ServeDIAM] looks up, for every value of the flags. *)
Theorem CommandName_Abbrev_dispatch_key (hdr : Hdr.Header) (cmd : Hdr.Command)
    (dcmd : DictCommand) :
  Hdr.commandCodes !! Hdr.CommandCode hdr = Some cmd →
  Hdr.Abbrev cmd = Short dcmd →
  Hdr.Abbrev (Hdr.CommandName hdr) = dispatch_key dcmd (Hdr.CommandFlags hdr).
Proof.
  intros Hc Hs. rewrite (CommandName_known hdr cmd Hc). unfold dispatch_key, RequestFlag.
  destruct (land_128_cases (Hdr.CommandFlags hdr)) as [Hz|Hz]; rewrite Hz;
    repeat case_decide; try lia; cbn; by rewrite Hs.
Qed.

Lemma CommandName_Abbrev_dispatch_key_witness :
  Hdr.Abbrev (Hdr.CommandName (Hdr.mkHeader 1 (0, 0, 20) 128 (0, 1, 1) 0 0 0))
  = dispatch_key (mkDictCommand 257 "CE" "Capabilities-Exchange") 128.
Proof.
  refine (CommandName_Abbrev_dispatch_key
    (Hdr.mkHeader 1 (0, 0, 20) 128 (0, 1, 1) 0 0 0)
    (Hdr.mkCommand "Capabilities-Exchange" "CE")
    (mkDictCommand 257 "CE" "Capabilities-Exchange") _ _); reflexivity.
Defined.

Lemma string_app_inj_l (s t1 t2 : string) : s +:+ t1 = s +:+ t2 → t1 = t2.
Proof. induction s as [|a s IH]; cbn; [done|]. intros [= Heq]. by apply IH. Qed.

Lemma string_snoc_inj (s1 s2 : string) (a b : Ascii.ascii) :
  s1 +:+ String a "" = s2 +:+ String b "" → s1 = s2 ∧ a = b.
Proof.
  revert s2. induction s1 as [|c s1 IH]; intros [|d s2]; cbn.
  - by intros [= ->].
  - intros [= -> Hs]. by destruct s2.
  - intros [= -> Hs]. by destruct s1.
  - intros [= -> Hs]. destruct (IH s2 Hs) as [-> ->]. done.
Qed.

(** X7. Requests and answers never share a key, nor do different
    commands: the key determines the short name and the Request bit.  And
    no resolved command has the key "ALL" of the catch-all. *)
Theorem dispatch_key_inj (d1 d2 : DictCommand) (f1 f2 : Z) :
  (dispatch_key d1 f1 = dispatch_key d2 f2 →
     Short d1 = Short d2 ∧ Z.testbit f1 7 = Z.testbit f2 7)
  ∧ dispatch_key d1 f1 ≠ "ALL".
Proof.
  split.
  - destruct (Z.testbit f1 7) eqn:H1, (Z.testbit f2 7) eqn:H2;
      rewrite ?(dispatch_key_request d1 f1), ?(dispatch_key_answer d1 f1),
        ?(dispatch_key_request d2 f2), ?(dispatch_key_answer d2 f2) by done;
      intros Heq; apply string_snoc_inj in Heq as [Hs Hc]; done.
  - destruct (Z.testbit f1 7) eqn:H1;
      rewrite ?(dispatch_key_request d1 f1), ?(dispatch_key_answer d1 f1) by done;
      change "ALL" with ("AL" +:+ "L"); intros Heq;
      apply string_snoc_inj in Heq as [_ Hc]; done.
Qed.

Lemma bind_assoc_at {A B C} (x : M A) (f : A → M B) (g : B → M C) w :
  bind (bind x f) g w = bind x (λ a, bind (f a) g) w.
Proof. unfold bind. by destruct (x w) as [[a|v] w']. Qed.

Lemma lookup_key_resolved msg dcmd :
  FindCommand (Dictionary msg) (ApplicationID (Header msg)) (CommandCode (Header msg))
    = (Some dcmd, None) →
  lookup_key msg = Some (dispatch_key dcmd (CommandFlags (Header msg))).
Proof. intros Hf. unfold lookup_key. by rewrite Hf. Qed.

Lemma lookup_key_failed msg dcmd err :
  FindCommand (Dictionary msg) (ApplicationID (Header msg)) (CommandCode (Header msg))
    = (dcmd, Some err) →
  lookup_key msg = Some "ALL".
Proof. intros Hf. unfold lookup_key. rewrite Hf. by destruct dcmd. Qed.

(** X8. Registration and dispatch round trip, whatever invoking a
    handler does: on a multiplexer made by [NewServeMux] (its map is not
    nil), [Handle] returns, and the dispatch that follows of a message
    with the key just registered is one invocation of the handler just
    registered, with the connection and the message, in the state
    [Handle] left: the table with the new entry put under the key,
    whatever was there before, and every mailbox as it was. *)
Theorem Handle_then_ServeDIAM (invoke : Handler → Conn → option Message → M unit)
    (w : World) (p : addr) (mx : ServeMux) (key : string)
    (hd : Handler) (c : Conn) (msg : Message) :
  muxes w !! p = Some mx → ¬ nil_map mx → lookup_key msg = Some key →
  ServeMux_Handle p key (Some hd) w =
    (Ret tt,
     mkWorld (<[p := mkServeMux (e mx) (<[key := mkMuxEntry hd key]> (m mx))]> (muxes w))
       (trace w))
  ∧ (ServeMux_Handle p key (Some hd) ;;; ServeMux_ServeDIAM_with invoke p c (Some msg)) w =
      invoke hd c (Some msg)
        (mkWorld (<[p := mkServeMux (e mx) (<[key := mkMuxEntry hd key]> (m mx))]> (muxes w))
           (trace w)).
Proof.
  intros Hp Hz Hk. rewrite (ServeMux_Handle_stores w p mx) by done. split; [done|].
  unfold bind at 1. rewrite (ServeMux_Handle_stores w p mx) by done.
  erewrite ServeMux_ServeDIAM_with_key; [|cbn; apply lookup_insert_eq|done].
  erewrite ServeMux_serve_with_hit;
    [|cbn; apply lookup_insert_eq|cbn; apply lookup_insert_eq].
  reflexivity.
Qed.

Lemma Handle_then_ServeDIAM_witness :
  (ServeMux_Handle DefaultServeMux "CCR" (Some (HandlerFunc quiet)) ;;;
   ServeMux_ServeDIAM DefaultServeMux 1%nat (Some ccr_msg)) init_World
  = (Ret tt,
     mkWorld (muxes ccr_World) [EvServeDIAM (HandlerFunc quiet) 1%nat (Some ccr_msg)]).
Proof.
  refine (eq_trans (proj2
    (Handle_then_ServeDIAM call_ServeDIAM init_World DefaultServeMux new_ServeMux "CCR"
       (HandlerFunc quiet) 1%nat ccr_msg _ _ _)) _); [reflexivity|discriminate|reflexivity..].
Defined.

(** X9. Registering a handler under a key that already has one does not
    panic (the comment of [Handle] says it does): on a multiplexer made
    by [NewServeMux], [Handle] returns, the new handler is the one found
    under the key afterwards, the entries under the other keys and the
    mailbox are as they were, and nothing is recorded. *)
Theorem Handle_replaces (w : World) (p : addr) (mx : ServeMux) (key : string)
    (old : muxEntry) (hd : Handler) :
  muxes w !! p = Some mx → ¬ nil_map mx → m mx !! key = Some old →
  ∃ mx',
    ServeMux_Handle p key (Some hd) w
      = (Ret tt, mkWorld (<[p := mx']> (muxes w)) (trace w))
    ∧ m mx' !! key = Some (mkMuxEntry hd key)
    ∧ (∀ key', key' ≠ key → m mx' !! key' = m mx !! key')
    ∧ e mx' = e mx.
Proof.
  intros Hp Hz Hold.
  exists (mkServeMux (e mx) (<[key := mkMuxEntry hd key]> (m mx))).
  split; [by apply ServeMux_Handle_stores|]. cbn.
  split; [apply lookup_insert_eq|]. split; [|done].
  intros key' Hne. by rewrite lookup_insert_ne.
Qed.

Lemma Handle_replaces_witness :
  ∃ mx',
    ServeMux_Handle DefaultServeMux "CCR" (Some (HandlerFunc panicky)) ccr_World
      = (Ret tt, mkWorld (<[DefaultServeMux := mx']> (muxes ccr_World)) (trace ccr_World))
    ∧ m mx' !! "CCR" = Some (mkMuxEntry (HandlerFunc panicky) "CCR")
    ∧ (∀ key', key' ≠ "CCR" →
         m mx' !! key'
         = m (mkServeMux (make_chan ErrorReport 1)
                {[ "CCR" := mkMuxEntry (HandlerFunc quiet) "CCR" ]}) !! key')
    ∧ e mx' = e (mkServeMux (make_chan ErrorReport 1)
                   {[ "CCR" := mkMuxEntry (HandlerFunc quiet) "CCR" ]}).
Proof.
  apply (Handle_replaces ccr_World DefaultServeMux
    (mkServeMux (make_chan ErrorReport 1)
       {[ "CCR" := mkMuxEntry (HandlerFunc quiet) "CCR" ]})
    "CCR" (mkMuxEntry (HandlerFunc quiet) "CCR") (HandlerFunc panicky));
    [reflexivity|discriminate|reflexivity].
Defined.

(** X10. A registration under one key leaves the dispatch under every
    other key as it was, whatever invoking a handler does: after
    [Handle] under another key on a multiplexer made by [NewServeMux],
    the dispatch of the message is one invocation of the handler that was
    already registered for it, in the state [Handle] left. *)
Theorem Handle_other_key (invoke : Handler → Conn → option Message → M unit)
    (w : World) (p : addr) (mx : ServeMux) (key key' : string)
    (hd : Handler) (entry : muxEntry) (c : Conn) (msg : Message) :
  muxes w !! p = Some mx → ¬ nil_map mx → lookup_key msg = Some key → key' ≠ key →
  m mx !! key = Some entry →
  (ServeMux_Handle p key' (Some hd) ;;; ServeMux_ServeDIAM_with invoke p c (Some msg)) w =
    invoke (h entry) c (Some msg)
      (mkWorld (<[p := mkServeMux (e mx) (<[key' := mkMuxEntry hd key']> (m mx))]> (muxes w))
         (trace w)).
Proof.
  intros Hp Hz Hk Hne He. unfold bind at 1.
  rewrite (ServeMux_Handle_stores w p mx) by done.
  erewrite ServeMux_ServeDIAM_with_key; [|cbn; apply lookup_insert_eq|done].
  erewrite ServeMux_serve_with_hit;
    [|cbn; apply lookup_insert_eq|cbn; by rewrite lookup_insert_ne].
  reflexivity.
Qed.

Lemma Handle_other_key_witness :
  (ServeMux_Handle DefaultServeMux "CCA" (Some (HandlerFunc panicky)) ;;;
   ServeMux_ServeDIAM DefaultServeMux 1%nat (Some ccr_msg)) ccr_World
  = (Ret tt,
     mkWorld
       (<[DefaultServeMux :=
            mkServeMux (make_chan ErrorReport 1)
              (<["CCA" := mkMuxEntry (HandlerFunc panicky) "CCA"]>
                 {[ "CCR" := mkMuxEntry (HandlerFunc quiet) "CCR" ]})]> (muxes ccr_World))
       [EvServeDIAM (HandlerFunc quiet) 1%nat (Some ccr_msg)]).
Proof.
  refine (eq_trans
    (Handle_other_key call_ServeDIAM ccr_World DefaultServeMux
       (mkServeMux (make_chan ErrorReport 1)
          {[ "CCR" := mkMuxEntry (HandlerFunc quiet) "CCR" ]})
       "CCR" "CCA" (HandlerFunc panicky) (mkMuxEntry (HandlerFunc quiet) "CCR")
       1%nat ccr_msg _ _ _ _ _) _); [reflexivity|discriminate|reflexivity|done|reflexivity..].
Defined.

(** X11. The catch-all, whatever invoking a handler does: when the
    dictionary does not resolve the message and a handler is registered
    under "ALL", the dispatch is one invocation of that handler, with the
    connection and the message, in the state the dispatch started from,
    and nothing more: the multiplexer itself reports nothing. *)
Theorem ServeDIAM_catch_all (invoke : Handler → Conn → option Message → M unit)
    (w : World) (p : addr) (mx : ServeMux) (c : Conn)
    (msg : Message) (dcmd : option DictCommand) (err : error) (entry : muxEntry) :
  muxes w !! p = Some mx →
  FindCommand (Dictionary msg) (ApplicationID (Header msg)) (CommandCode (Header msg))
    = (dcmd, Some err) →
  m mx !! "ALL" = Some entry →
  ServeMux_ServeDIAM_with invoke p c (Some msg) w = invoke (h entry) c (Some msg) w.
Proof.
  intros Hp Hf He.
  rewrite (ServeMux_ServeDIAM_with_key invoke w p mx c msg "ALL" Hp
             (lookup_key_failed _ _ _ Hf)).
  by apply (ServeMux_serve_with_hit invoke w p mx).
Qed.

Lemma ServeDIAM_catch_all_witness :
  ServeMux_ServeDIAM DefaultServeMux 1%nat (Some cer_msg)
    (ServeMux_HandleFunc DefaultServeMux "ALL" quiet init_World).2
  = (Ret tt,
     mkWorld (muxes (ServeMux_HandleFunc DefaultServeMux "ALL" quiet init_World).2)
       [EvServeDIAM (HandlerFunc quiet) 1%nat (Some cer_msg)]).
Proof.
  refine (eq_trans
    (ServeDIAM_catch_all call_ServeDIAM _ DefaultServeMux
       (mkServeMux (make_chan ErrorReport 1)
          {[ "ALL" := mkMuxEntry (HandlerFunc quiet) "ALL" ]})
       1%nat cer_msg None (errorString "Could not find preloaded Command")
       (mkMuxEntry (HandlerFunc quiet) "ALL") _ _ _) _); reflexivity.
Defined.

(** X12. The catch-all is not a fallback for resolved commands: when the
    dictionary resolves the message and no handler is registered under
    its key, the message is reported as unhandled and no handler runs,
    even if a handler is registered under "ALL". *)
Theorem ServeDIAM_resolved_skips_catch_all (w : World) (p : addr) (mx : ServeMux)
    (c : Conn) (msg : Message) (dcmd : DictCommand) (entry : muxEntry) :
  muxes w !! p = Some mx →
  FindCommand (Dictionary msg) (ApplicationID (Header msg)) (CommandCode (Header msg))
    = (Some dcmd, None) →
  m mx !! dispatch_key dcmd (CommandFlags (Header msg)) = None →
  m mx !! "ALL" = Some entry →
  ServeMux_ServeDIAM p c (Some msg) w =
    (Ret tt,
     mkWorld (<[p := mkServeMux (try_send (e mx) (unhandled c (Some msg))) (m mx)]> (muxes w))
       (trace w)).
Proof.
  intros Hp Hf Hmiss _.
  rewrite (ServeMux_ServeDIAM_key w p mx c msg _ Hp (lookup_key_resolved _ _ Hf)).
  rewrite (ServeMux_serve_miss w p mx) by done.
  by apply ServeMux_Error_eq.
Qed.

Lemma ServeDIAM_resolved_skips_catch_all_witness :
  ServeMux_ServeDIAM DefaultServeMux 1%nat (Some ccr_msg)
    (ServeMux_HandleFunc DefaultServeMux "ALL" quiet init_World).2
  = (Ret tt,
     mkWorld
       (<[DefaultServeMux :=
            mkServeMux (mkChan [unhandled 1%nat (Some ccr_msg)] 1)
              {[ "ALL" := mkMuxEntry (HandlerFunc quiet) "ALL" ]}]>
          (muxes (ServeMux_HandleFunc DefaultServeMux "ALL" quiet init_World).2))
       []).
Proof.
  refine (eq_trans
    (ServeDIAM_resolved_skips_catch_all _ DefaultServeMux
       (mkServeMux (make_chan ErrorReport 1)
          {[ "ALL" := mkMuxEntry (HandlerFunc quiet) "ALL" ]})
       1%nat ccr_msg (mkDictCommand 272 "CC" "Credit-Control")
       (mkMuxEntry (HandlerFunc quiet) "ALL") _ _ _ _) _); reflexivity.
Defined.

End Registration.

(* ===================================================================== *)
(** * Further properties of the connection *)
(* ===================================================================== *)

Section Serving.
Import Srv.

(** ** Registrations are stable while serving *)

Lemma tables_kept_refl w : tables_kept w w.
Proof. by intros q. Qed.

Lemma tables_kept_trans w1 w2 w3 :
  tables_kept w1 w2 → tables_kept w2 w3 → tables_kept w1 w3.
Proof. intros H12 H23 q. by rewrite H23, H12. Qed.

Lemma keeps_ret {A} (a : A) : keeps_tables (ret a).
Proof. intros w. apply tables_kept_refl. Qed.

Lemma keeps_panic {A} v : keeps_tables (@panic A v).
Proof. intros w. apply tables_kept_refl. Qed.

Lemma keeps_emit ev : keeps_tables (emit ev).
Proof. by intros w q. Qed.

Lemma keeps_bind {A B} (x : M A) (k : A → M B) :
  keeps_tables x → (∀ a, keeps_tables (k a)) → keeps_tables (bind x k).
Proof.
  intros Hx Hk w. unfold bind. specialize (Hx w).
  destruct (x w) as [[a|v] w']; [|done].
  eapply tables_kept_trans; [exact Hx|apply Hk].
Qed.

Lemma keeps_load_bind {B} p (k : ServeMux → M B) :
  (∀ mx, keeps_tables (k mx)) → keeps_tables (bind (load p) k).
Proof.
  intros Hk w. unfold bind, load.
  destruct (muxes w !! p) as [mx|]; [apply Hk|apply tables_kept_refl].
Qed.

Lemma ServeMux_Error_keeps p r : keeps_tables (ServeMux_Error p r).
Proof.
  intros w q. unfold ServeMux_Error, bind, load.
  destruct (muxes w !! p) as [mx|] eqn:Hp; cbn; [|done].
  destruct (decide (p = q)) as [->|Hne].
  - by rewrite lookup_insert_eq, Hp.
  - by rewrite lookup_insert_ne.
Qed.

Lemma ServeMux_serve_with_keeps invoke p key c msg :
  (∀ hd c msg, keeps_tables (invoke hd c msg)) →
  keeps_tables (ServeMux_serve_with invoke p key c msg).
Proof.
  intros Hi. unfold ServeMux_serve_with. apply keeps_load_bind. intros mx.
  destruct (m mx !! key); [apply Hi|apply ServeMux_Error_keeps].
Qed.

Lemma ServeMux_ServeDIAM_with_keeps invoke p c msg :
  (∀ hd c msg, keeps_tables (invoke hd c msg)) →
  keeps_tables (ServeMux_ServeDIAM_with invoke p c msg).
Proof.
  intros Hi. unfold ServeMux_ServeDIAM_with. apply keeps_load_bind. intros _.
  destruct msg as [msg|]; [|apply keeps_panic].
  destruct (FindCommand _ _ _) as [[dcmd|] [err|]];
    auto using ServeMux_serve_with_keeps, keeps_panic.
Qed.

Section UserCodeKeepsTables.
Variable user : UserCode.
Hypothesis user_ServeDIAM : ∀ hd c msg, keeps_tables (run_ServeDIAM user hd c msg).
Hypothesis user_Error : ∀ hd r, keeps_tables (run_Error user hd r).

Lemma Handler_ServeDIAM_keeps depth hd c msg :
  keeps_tables (Handler_ServeDIAM user depth hd c msg).
Proof.
  revert hd c msg. induction depth as [|depth IH]; intros [f|q|f b] c msg; cbn;
    auto using ServeMux_ServeDIAM_with_keeps, keeps_panic.
Qed.

Lemma invoke_with_keeps hd c msg : keeps_tables (invoke_with user hd c msg).
Proof. intros w. unfold invoke_with. apply Handler_ServeDIAM_keeps. Qed.

Lemma serve_iteration_with_keeps c res k :
  keeps_tables k → keeps_tables (serve_iteration_with user c res k).
Proof.
  intros Hk. unfold serve_iteration_with. apply keeps_bind.
  - unfold conn_readMessage. apply keeps_bind.
    + case_decide; [apply keeps_emit|apply keeps_ret].
    + intros _. destruct res as [msg [err|]]; apply keeps_ret.
  - intros r. destruct r.2 as [err|].
    + unfold read_failed_with. apply keeps_bind; [apply keeps_emit|].
      intros _. case_decide; [|apply keeps_ret].
      destruct (active_handler (server c)) as [f|p|f [|]]; cbn;
        auto using ServeMux_Error_keeps, keeps_ret.
    + apply keeps_bind; [|done].
      unfold serverHandler_ServeDIAM_with.
      destruct (active_handler (server c));
        auto using ServeMux_ServeDIAM_with_keeps, invoke_with_keeps.
Qed.

Lemma serve_loop_with_keeps c inbox : keeps_tables (serve_loop_with user c inbox).
Proof.
  induction inbox as [|res rest IH]; cbn [serve_loop_with];
    apply serve_iteration_with_keeps; [apply keeps_ret|done].
Qed.

Lemma conn_serve_with_keeps c inbox : keeps_tables (conn_serve_with user c inbox).
Proof.
  intros w. unfold conn_serve_with, defer_recover.
  assert (Hbody : keeps_tables
    (match tls_handshake (rwc c) with
     | Some (Some _) => ret tt
     | Some None => emit (EvTLSState (fd (rwc c))) ;;; serve_loop_with user c inbox
     | None => serve_loop_with user c inbox
     end)).
  { destruct (tls_handshake (rwc c)) as [[err|]|];
      auto using serve_loop_with_keeps, keeps_ret, keeps_bind, keeps_emit. }
  specialize (Hbody w).
  destruct (match tls_handshake (rwc c) with
            | Some (Some _) => ret tt
            | Some None => emit (EvTLSState (fd (rwc c))) ;;; serve_loop_with user c inbox
            | None => serve_loop_with user c inbox
            end w) as [[[]|v] w']; cbn in *; intros q; apply Hbody.
Qed.

End UserCodeKeepsTables.



(** X14. Serving a connection keeps every error mailbox within its one
    slot: if each multiplexer of the store has a channel of capacity 1
    holding at most one report, this is still so when [conn.serve]
    returns, whatever the stream. *)
Theorem conn_serve_mailboxes (c : conn) (inbox : list ReadResult) (w : World) :
  (∀ q mx, muxes w !! q = Some mx → cap (e mx) = 1%nat ∧ (length (buf (e mx)) ≤ 1)%nat) →
  ∀ q mx, muxes (conn_serve c inbox w).2 !! q = Some mx →
    cap (e mx) = 1%nat ∧ (length (buf (e mx)) ≤ 1)%nat.
Proof. intros Hw. by apply (conn_serve_preserves c inbox w). Qed.

Lemma conn_serve_mailboxes_witness :
  cap (e (mkServeMux (mkChan [unhandled 1%nat (Some cca_msg)] 1)
            {[ "CCR" := mkMuxEntry (HandlerFunc quiet) "CCR" ]})) = 1%nat
  ∧ (length (buf (e (mkServeMux (mkChan [unhandled 1%nat (Some cca_msg)] 1)
                       {[ "CCR" := mkMuxEntry (HandlerFunc quiet) "CCR" ]}))) ≤ 1)%nat.
Proof.
  refine (conn_serve_mailboxes sample_conn
    [(Some cca_msg, None); (Some cer_msg, None); (None, Some (opError "reset"))]
    ccr_World _ DefaultServeMux _ _).
  - exact (ServeMux_Handle_preserves DefaultServeMux "CCR" (Some (HandlerFunc quiet))
             init_World init_World_ok).
  - reflexivity.
Defined.


(** ** Order of service *)

Lemma serve_loop_nil c : serve_loop c [] = serve_iteration c (None, Some io_EOF) (ret tt).
Proof. reflexivity. Qed.

Lemma serve_loop_cons c res rest :
  serve_loop c (res :: rest) = serve_iteration c res (serve_loop c rest).
Proof. reflexivity. Qed.

Lemma serve_iteration_failed c w msg err k :
  serve_iteration c (msg, Some err) k w =
    if decide (err ≠ io_EOF ∧ err ≠ io_ErrUnexpectedEOF)
    then report_error (active_handler (server c))
           (mkErrorReport (writer c) None err) (failed_turn c w)
    else (Ret tt, failed_turn c w).
Proof.
  unfold serve_iteration, serve_iteration_with, bind at 1.
  rewrite conn_readMessage_eq. cbn [fst snd].
  unfold read_failed_with, bind, emit, failed_turn. cbn [muxes trace].
  rewrite <- app_assoc. by case_decide.
Qed.

Lemma serverHandler_user c hd msg w :
  active_handler (server c) = hd → (∀ p, hd ≠ ServeMuxPtr p) →
  serverHandler_ServeDIAM (server c) (writer c) msg w = call_ServeDIAM hd (writer c) msg w.
Proof.
  intros Hh Hnm. unfold serverHandler_ServeDIAM, serverHandler_ServeDIAM_with.
  rewrite Hh, call_ServeDIAM_eq by done.
  destruct hd as [f|p|f b]; [apply call_user_eq| |apply call_user_eq].
  by destruct (Hnm p).
Qed.

Lemma serve_iteration_served c hd msg k w :
  active_handler (server c) = hd → (∀ p, hd ≠ ServeMuxPtr p) →
  completion hd (writer c) msg = Returns →
  serve_iteration c (msg, None) k w =
    k (mkWorld (muxes w)
         (trace w ++ (if decide (ReadTimeout (server c) > 0)
                      then [EvSetReadDeadline (fd (rwc c))] else [])
          ++ [EvServeDIAM hd (writer c) msg])).
Proof.
  intros Hh Hnm Hret. unfold serve_iteration, serve_iteration_with, bind at 1.
  rewrite conn_readMessage_eq. cbn [fst snd].
  unfold bind. fold serverHandler_ServeDIAM.
  rewrite (serverHandler_user c hd msg _ Hh Hnm), call_ServeDIAM_eq, Hret by done.
  cbn [muxes trace]. by rewrite <- app_assoc.
Qed.

Lemma dispatched_app tr1 tr2 : dispatched (tr1 ++ tr2) = dispatched tr1 ++ dispatched tr2.
Proof. unfold dispatched. apply omap_app. Qed.

Lemma dispatched_failed_turn c w : dispatched (trace (failed_turn c w)) = dispatched (trace w).
Proof.
  unfold failed_turn. cbn. rewrite !dispatched_app.
  case_decide; cbn; by rewrite app_nil_r.
Qed.

(** X16. Messages are served one at a time in arrival order: with a
    handler that is not a multiplexer and always returns, the serving
    loop returns, and the handler has been invoked, with this connection,
    on exactly the messages read before the first failure, each once and
    in the order of the stream; nothing after the failure is served. *)
Theorem serve_loop_in_order (c : conn) (hd : Handler) (inbox : list ReadResult) (w : World) :
  active_handler (server c) = hd →
  (∀ p, hd ≠ ServeMuxPtr p) →
  (∀ cn msg, completion hd cn msg = Returns) →
  (serve_loop c inbox w).1 = Ret tt
  ∧ dispatched (trace (serve_loop c inbox w).2)
    = dispatched (trace w) ++ ((λ msg, (hd, writer c, msg)) <$> readable inbox).
Proof.
  intros Hh Hnm Hret.
  assert (Hfail : ∀ w msg err k,
    (serve_iteration c (msg, Some err) k w).1 = Ret tt
    ∧ dispatched (trace (serve_iteration c (msg, Some err) k w).2) = dispatched (trace w)).
  { intros w0 msg err k. rewrite serve_iteration_failed. case_decide.
    - rewrite Hh. destruct hd as [f|p|f [|]]; cbn.
      + split; [done|apply (dispatched_failed_turn c w0)].
      + by destruct (Hnm p).
      + split; [done|]. rewrite dispatched_app. cbn. rewrite app_nil_r.
        apply (dispatched_failed_turn c w0).
      + split; [done|apply (dispatched_failed_turn c w0)].
    - split; [done|apply dispatched_failed_turn]. }
  revert w. induction inbox as [|[msg [err|]] rest IH]; intros w;
    rewrite ?serve_loop_nil, ?serve_loop_cons; cbn [readable].
  - destruct (Hfail w None io_EOF (ret tt)) as [H1 H2].
    split; [done|]. by rewrite H2, fmap_nil, app_nil_r.
  - destruct (Hfail w msg err (serve_loop c rest)) as [H1 H2].
    split; [done|]. by rewrite H2, fmap_nil, app_nil_r.
  - rewrite (serve_iteration_served c hd msg (serve_loop c rest) w Hh Hnm (Hret _ _)).
    destruct (IH (mkWorld (muxes w)
      (trace w ++ (if decide (ReadTimeout (server c) > 0)
                   then [EvSetReadDeadline (fd (rwc c))] else [])
       ++ [EvServeDIAM hd (writer c) msg]))) as [H1 H2].
    split; [exact H1|]. rewrite H2. cbn [trace].
    rewrite !dispatched_app, fmap_cons. cbn [dispatched omap].
    case_decide; cbn; by rewrite ?app_nil_r, <- app_assoc.
Qed.

Lemma serve_loop_in_order_witness :
  dispatched (trace (serve_loop
    (mkConn (mkServer ":3868" (Some (HandlerFunc quiet)) None 30 0) (mkNetConn 7 None) 1%nat)
    [(Some ccr_msg, None); (Some cca_msg, None); (None, Some io_EOF); (Some cer_msg, None)]
    init_World).2)
  = [(HandlerFunc quiet, 1%nat, Some ccr_msg); (HandlerFunc quiet, 1%nat, Some cca_msg)].
Proof.
  refine (proj2 (serve_loop_in_order
    (mkConn (mkServer ":3868" (Some (HandlerFunc quiet)) None 30 0) (mkNetConn 7 None) 1%nat)
    (HandlerFunc quiet)
    [(Some ccr_msg, None); (Some cca_msg, None); (None, Some io_EOF); (Some cer_msg, None)]
    init_World _ _ _)); done.
Defined.

Lemma serve_iteration_panicked c hd msg v k w :
  active_handler (server c) = hd → (∀ p, hd ≠ ServeMuxPtr p) →
  completion hd (writer c) msg = Panics v →
  serve_iteration c (msg, None) k w =
    (Panic v,
     mkWorld (muxes w)
       (trace w ++ (if decide (ReadTimeout (server c) > 0)
                    then [EvSetReadDeadline (fd (rwc c))] else [])
        ++ [EvServeDIAM hd (writer c) msg])).
Proof.
  intros Hh Hnm Hp. unfold serve_iteration, serve_iteration_with, bind at 1.
  rewrite conn_readMessage_eq. cbn [fst snd].
  unfold bind. fold serverHandler_ServeDIAM.
  rewrite (serverHandler_user c hd msg _ Hh Hnm), call_ServeDIAM_eq, Hp by done.
  cbn [muxes trace]. by rewrite <- app_assoc.
Qed.

Lemma serve_loop_panic c hd pre msg v rest w :
  active_handler (server c) = hd → (∀ p, hd ≠ ServeMuxPtr p) →
  (∀ m0, m0 ∈ pre → completion hd (writer c) m0 = Returns) →
  completion hd (writer c) msg = Panics v →
  ∃ tr,
    serve_loop c (((λ m0, (m0, None)) <$> pre) ++ (msg, None) :: rest) w
      = (Panic v, mkWorld (muxes w) (tr ++ [EvServeDIAM hd (writer c) msg]))
    ∧ dispatched tr = dispatched (trace w) ++ ((λ m0, (hd, writer c, m0)) <$> pre).
Proof.
  intros Hh Hnm Hpre Hp. revert w. induction pre as [|m0 pre IH]; intros w.
  - cbn [fmap list_fmap app]. rewrite serve_loop_cons.
    rewrite (serve_iteration_panicked c hd msg v _ w Hh Hnm Hp).
    eexists. split; [by rewrite app_assoc|].
    rewrite dispatched_app. case_decide; cbn; by rewrite ?app_nil_r.
  - cbn [fmap list_fmap app]. rewrite serve_loop_cons.
    rewrite (serve_iteration_served c hd m0 _ w Hh Hnm)
      by (apply Hpre, list_elem_of_here).
    destruct (IH (λ m1 Hin, Hpre m1 (list_elem_of_further _ _ _ Hin))
      (mkWorld (muxes w)
         (trace w ++ (if decide (ReadTimeout (server c) > 0)
                      then [EvSetReadDeadline (fd (rwc c))] else [])
          ++ [EvServeDIAM hd (writer c) m0]))) as (tr & Heq & Hd).
    exists tr. split; [exact Heq|]. rewrite Hd. cbn [trace].
    rewrite !dispatched_app. cbn [dispatched omap list_omap fmap list_fmap].
    case_decide; cbn; by rewrite ?app_nil_r, <- app_assoc.
Qed.



End Serving.

(* ===================================================================== *)
(** * Allocation and consumption of the mailbox *)
(* ===================================================================== *)

Section Mailbox.
Import Srv.

(** X18. A multiplexer made by [NewServeMux] is new and empty: its
    address is not in use, and the dispatch of any message the dictionary
    answers for finds no handler, so that the message is reported in the
    new mailbox, which was empty; the other multiplexers are untouched. *)
Theorem NewServeMux_then_ServeDIAM (w : World) (c : Conn) (msg : Message) (key : string) :
  lookup_key msg = Some key →
  muxes w !! fresh (dom (muxes w)) = None
  ∧ (p <- NewServeMux ;; ServeMux_ServeDIAM p c (Some msg)) w =
      (Ret tt,
       mkWorld
         (<[fresh (dom (muxes w)) :=
              mkServeMux (mkChan [unhandled c (Some msg)] 1) ∅]> (muxes w))
         (trace w)).
Proof.
  intros Hk. split.
  - apply not_elem_of_dom, is_fresh.
  - unfold bind at 1, NewServeMux. cbn zeta.
    erewrite ServeMux_ServeDIAM_key; [|cbn; apply lookup_insert_eq|done].
    erewrite ServeMux_serve_miss; [|cbn; apply lookup_insert_eq|cbn; apply lookup_empty].
    erewrite ServeMux_Error_eq by (cbn; apply lookup_insert_eq).
    cbn. by rewrite insert_insert_eq.
Qed.

Lemma NewServeMux_then_ServeDIAM_witness :
  (p <- NewServeMux ;; ServeMux_ServeDIAM p 1%nat (Some ccr_msg)) ccr_World
  = (Ret tt,
     mkWorld
       (<[fresh (dom (muxes ccr_World)) :=
            mkServeMux (mkChan [unhandled 1%nat (Some ccr_msg)] 1) ∅]> (muxes ccr_World))
       []).
Proof.
  refine (proj2 (NewServeMux_then_ServeDIAM ccr_World 1%nat ccr_msg "CCR" _)).
  reflexivity.
Defined.

Lemma ErrorReports_recv_eq w p mx :
  muxes w !! p = Some mx →
  ErrorReports_recv p w =
    (Ret (try_recv (e mx)).1,
     mkWorld (<[p := mkServeMux (try_recv (e mx)).2 (m mx)]> (muxes w)) (trace w)).
Proof.
  intros Hp. unfold ErrorReports_recv, bind at 1. rewrite (load_Some w p mx) by done.
  destruct (try_recv (e mx)) as [r ch]. reflexivity.
Qed.

(** X19. A drained mailbox loses nothing: from an empty one-slot
    mailbox, for any number of reports, when the consumer takes each
    report before the next one is submitted it receives every report, in
    the order of submission, and the state at the end is the state at the
    start, with the mailbox empty. *)
Theorem ServeMux_Error_then_recv (w : World) (p : addr) (mx : ServeMux)
    (rs : list ErrorReport) :
  muxes w !! p = Some mx → cap (e mx) = 1%nat → buf (e mx) = [] →
  submit_and_take p rs w = (Ret (Some <$> rs), w).
Proof.
  intros Hp Hc Hb.
  assert (Hmx : mkServeMux (mkChan [] 1) (m mx) = mx).
  { destruct mx as [[bf cp] tbl]. cbn in *. by subst. }
  induction rs as [|r rs IH]; [done|].
  cbn [submit_and_take].
  unfold bind at 1. rewrite (ServeMux_Error_eq w p mx) by done.
  rewrite try_send_empty by done.
  unfold bind at 1. erewrite ErrorReports_recv_eq by (cbn; apply lookup_insert_eq).
  cbn [e m try_recv buf cap muxes trace fst snd]. rewrite insert_insert_eq.
  rewrite Hmx, insert_id, World_eta by done.
  unfold bind at 1. rewrite IH. reflexivity.
Qed.

Lemma ServeMux_Error_then_recv_witness :
  submit_and_take DefaultServeMux
    [unhandled 1%nat None; unhandled 2%nat None; unhandled 3%nat None] init_World
  = (Ret [Some (unhandled 1%nat None); Some (unhandled 2%nat None);
          Some (unhandled 3%nat None)],
     init_World).
Proof.
  apply (ServeMux_Error_then_recv init_World DefaultServeMux new_ServeMux); reflexivity.
Defined.

End Mailbox.

(* ===================================================================== *)
(** * Properties of the accept loop *)
(* ===================================================================== *)

Section Listener.
Import Srv.

Lemma int64_wrap_small v : - 2 ^ 63 ≤ v < 2 ^ 63 → int64_wrap v = v.
Proof. intros Hv. unfold int64_wrap. rewrite Z.mod_small by lia. lia. Qed.

(** The delay after a temporary error, from the delay before it. *)
Lemma next_delay_spec d :
  0 ≤ d ≤ time_Second →
  next_delay d = if decide (d = 0) then 5 * time_Millisecond
                 else Z.min (d * 2) time_Second.
Proof.
  unfold next_delay, time_Second, time_Millisecond. intros Hd.
  rewrite !int64_wrap_small by lia.
  repeat case_decide; lia.
Qed.

Lemma next_delay_bounds d :
  d = 0 ∨ 5 * time_Millisecond ≤ d ≤ time_Second →
  5 * time_Millisecond ≤ next_delay d ≤ time_Second.
Proof.
  intros Hd. rewrite next_delay_spec by (unfold time_Second, time_Millisecond in *; lia).
  unfold time_Second, time_Millisecond in *. case_decide; lia.
Qed.

Lemma backoff_0 : next_delay 0 = backoff 0.
Proof. reflexivity. Qed.

Lemma backoff_S n : next_delay (backoff n) = backoff (S n).
Proof.
  assert (Hpos : 0 < 2 ^ Z.of_nat n) by (apply Z.pow_pos_nonneg; lia).
  rewrite next_delay_spec.
  2: { unfold backoff, time_Second, time_Millisecond. lia. }
  unfold backoff. rewrite Nat2Z.inj_succ, Z.pow_succ_r by lia.
  unfold time_Second, time_Millisecond in *. case_decide; lia.
Qed.

Lemma accept_loop_temporary srv err rest closing d :
  accept_loop srv (AcceptError err true :: rest) closing d =
    ((accept_loop srv rest closing (next_delay d)).1,
     LvLog err (next_delay d) :: LvSleep (next_delay d)
       :: (accept_loop srv rest closing (next_delay d)).2).
Proof. cbn. by destruct (accept_loop srv rest closing (next_delay d)). Qed.

Lemma accept_loop_accepted srv rw rest closing d :
  accept_loop srv (Accepted rw :: rest) closing d =
    ((accept_loop srv rest closing 0).1,
     LvGoServe (Some (mkConn srv rw (fd rw))) :: (accept_loop srv rest closing 0).2).
Proof. cbn. by destruct (accept_loop srv rest closing 0). Qed.

(** X20. [Serve] always ends with an error, never with nil: the first
    accept error that is not temporary, or the error the listener is
    closed with; and the last thing it does is to close the listener. *)
Theorem Server_Serve_returns (srv : Server) (l : Listener) :
  (∃ err, (Server_Serve srv l).1 = Some err
          ∧ (err = closed_with l ∨ AcceptError err false ∈ backlog l))
  ∧ last (Server_Serve srv l).2 = Some LvClose.
Proof.
  unfold Server_Serve. destruct l as [results closing]. cbn [backlog closed_with].
  split.
  - assert (Hloop : ∀ d, ∃ err, (accept_loop srv results closing d).1 = Some err
        ∧ (err = closing ∨ AcceptError err false ∈ results)).
    { induction results as [|[rw|err [|]] rest IH]; intros d.
      - exists closing. by split; [|left].
      - rewrite accept_loop_accepted. destruct (IH 0) as (err & He & Hor).
        exists err. split; [done|]. destruct Hor; [by left|right; by apply list_elem_of_further].
      - rewrite accept_loop_temporary. destruct (IH (next_delay d)) as (err' & He & Hor).
        exists err'. split; [done|]. destruct Hor; [by left|right; by apply list_elem_of_further].
      - exists err. split; [done|]. right. apply list_elem_of_here. }
    destruct (Hloop 0) as (err & He & Hor). exists err.
    destruct (accept_loop srv results closing 0). by split.
  - destruct (accept_loop srv results closing 0). cbn. by rewrite last_snoc.
Qed.

(** X21. Every pause of the accept loop lasts between 5ms and 1s,
    whatever the errors and however many of them follow one another. *)
Theorem Server_Serve_sleep_bounds (srv : Server) (l : Listener) (d : Z) :
  d ∈ sleeps (Server_Serve srv l).2 →
  5 * time_Millisecond ≤ d ≤ time_Second.
Proof.
  unfold Server_Serve. destruct l as [results closing]. cbn [backlog closed_with].
  assert (Hloop : ∀ d0, d0 = 0 ∨ 5 * time_Millisecond ≤ d0 ≤ time_Second →
    ∀ d, d ∈ sleeps (accept_loop srv results closing d0).2 →
         5 * time_Millisecond ≤ d ≤ time_Second).
  { induction results as [|[rw|err [|]] rest IH]; intros d0 Hd0 d'.
    - cbn. by intros ?%elem_of_nil.
    - rewrite accept_loop_accepted. cbn. apply IH. by left.
    - rewrite accept_loop_temporary. cbn.
      pose proof (next_delay_bounds d0 Hd0) as Hn.
      intros [->|Hin]%elem_of_cons; [done|].
      revert Hin. apply IH. by right.
    - cbn. by intros ?%elem_of_nil. }
  destruct (accept_loop srv results closing 0) as [e evs] eqn:Hl.
  cbn. unfold sleeps. rewrite omap_app. cbn. rewrite app_nil_r.
  specialize (Hloop 0 ltac:(by left) d). by rewrite Hl in Hloop.
Qed.

Lemma Server_Serve_sleep_bounds_witness :
  5 * time_Millisecond ≤ 10000000 ≤ time_Second.
Proof.
  apply (Server_Serve_sleep_bounds sample_server
    (mkListener [AcceptError (opError "too many open files") true;
                 AcceptError (opError "too many open files") true]
       (opError "use of closed network connection"))).
  vm_compute. apply list_elem_of_further, list_elem_of_here.
Defined.

Lemma sleeps_pause err d evs : sleeps (LvLog err d :: LvSleep d :: evs) = d :: sleeps evs.
Proof. reflexivity. Qed.

Lemma sleeps_go c evs : sleeps (LvGoServe c :: evs) = sleeps evs.
Proof. reflexivity. Qed.

Lemma sleeps_temporary srv errs rest closing n :
  sleeps (accept_loop srv (temporary_errors errs ++ rest) closing (backoff n)).2
  = (backoff <$> seq (S n) (length errs))
    ++ sleeps (accept_loop srv rest closing (backoff (n + length errs))).2.
Proof.
  revert n. induction errs as [|err errs IH]; intros n.
  - cbn. by rewrite Nat.add_0_r.
  - change (temporary_errors (err :: errs) ++ rest)
      with (AcceptError err true :: (temporary_errors errs ++ rest)).
    rewrite accept_loop_temporary. cbn [snd]. rewrite sleeps_pause, backoff_S.
    rewrite (IH (S n)). cbn [length seq fmap list_fmap app].
    by rewrite Nat.add_succ_r.
Qed.

Lemma sleeps_accepted srv socks rest closing d :
  socks ≠ [] ∨ d = 0 →
  sleeps (accept_loop srv ((Accepted <$> socks) ++ rest) closing d).2
  = sleeps (accept_loop srv rest closing 0).2.
Proof.
  revert d. induction socks as [|rw socks IH]; intros d Hd.
  - destruct Hd as [?| ->]; done.
  - change ((Accepted <$> rw :: socks) ++ rest)
      with (Accepted rw :: ((Accepted <$> socks) ++ rest)).
    rewrite accept_loop_accepted. cbn [snd]. rewrite sleeps_go.
    apply IH. by right.
Qed.

Lemma sleeps_temporary_fresh srv errs rest closing :
  (∀ d, sleeps (accept_loop srv rest closing d).2
        = sleeps (accept_loop srv rest closing 0).2) →
  sleeps (accept_loop srv (temporary_errors errs ++ rest) closing 0).2
  = (backoff <$> seq 0 (length errs)) ++ sleeps (accept_loop srv rest closing 0).2.
Proof.
  intros Hrest. destruct errs as [|err errs]; [done|].
  change (temporary_errors (err :: errs) ++ rest)
    with (AcceptError err true :: (temporary_errors errs ++ rest)).
  rewrite accept_loop_temporary. cbn [snd]. rewrite sleeps_pause, backoff_0.
  rewrite (sleeps_temporary srv errs rest closing 0), Hrest. reflexivity.
Qed.

(** X22. The backoff: consecutive temporary accept errors make the loop
    pause 5ms, 10ms, 20ms and so on, doubling up to 1s, and a successful
    accept brings the pause back to 5ms: with any number of connections
    accepted first, a run of temporary errors, one more connection and a
    second run, the pauses are those of the first run from 5ms and then
    those of the second run from 5ms again. *)
Theorem Server_Serve_backoff (srv : Server) (socks : list NetConn) (rw : NetConn)
    (errs1 errs2 : list error) (perm closing : error) :
  sleeps (Server_Serve srv
            (mkListener
               ((Accepted <$> socks) ++ temporary_errors errs1
                ++ [Accepted rw] ++ temporary_errors errs2 ++ [AcceptError perm false])
               closing)).2
  = (backoff <$> seq 0 (length errs1)) ++ (backoff <$> seq 0 (length errs2)).
Proof.
  unfold Server_Serve. cbn [backlog closed_with].
  destruct (accept_loop srv _ closing 0) as [e evs] eqn:Hl. cbn [snd].
  unfold sleeps at 1. rewrite omap_app. cbn [omap]. rewrite app_nil_r.
  change (omap _ evs) with (sleeps evs).
  replace evs with (accept_loop srv
    ((Accepted <$> socks) ++ temporary_errors errs1
     ++ [Accepted rw] ++ temporary_errors errs2 ++ [AcceptError perm false]) closing 0).2
    by (by rewrite Hl).
  rewrite sleeps_accepted by (by right).
  rewrite sleeps_temporary_fresh.
  2: { intros d. cbn [app]. by rewrite !accept_loop_accepted. }
  cbn [app]. rewrite accept_loop_accepted. cbn [snd]. rewrite sleeps_go.
  rewrite sleeps_temporary_fresh by done.
  cbn. by rewrite app_nil_r.
Qed.

Lemma served_conns_go c evs : served_conns (LvGoServe c :: evs) = c :: served_conns evs.
Proof. reflexivity. Qed.

Lemma served_conns_pause err d evs :
  served_conns (LvLog err d :: LvSleep d :: evs) = served_conns evs.
Proof. reflexivity. Qed.

Lemma served_conns_loop srv results closing d :
  served_conns (accept_loop srv results closing d).2
  = (λ rw, Some (mkConn srv rw (fd rw))) <$> accepted_sockets results.
Proof.
  revert d. induction results as [|[rw|err [|]] rest IH]; intros d.
  - done.
  - rewrite accept_loop_accepted. cbn [snd accepted_sockets].
    rewrite served_conns_go, fmap_cons. f_equal. apply IH.
  - rewrite accept_loop_temporary. cbn [snd accepted_sockets].
    rewrite served_conns_pause. apply IH.
  - done.
Qed.

(** X23. One serving task per accepted socket: the connections handed
    to [conn.serve] are, in order, those built by [newConn] from the
    sockets accepted before the first permanent error, each bound to this
    server and to its own socket; temporary errors lose none of them. *)
Theorem Server_Serve_connections (srv : Server) (l : Listener) :
  served_conns (Server_Serve srv l).2
  = (λ rw, Some (mkConn srv rw (fd rw))) <$> accepted_sockets (backlog l).
Proof.
  unfold Server_Serve.
  pose proof (served_conns_loop srv (backlog l) (closed_with l) 0) as Hl.
  destruct (accept_loop srv (backlog l) (closed_with l) 0) as [e evs]. cbn [snd] in *.
  unfold served_conns in *. rewrite omap_app. cbn. by rewrite app_nil_r.
Qed.

End Listener.

(* ===================================================================== *)
(** * Properties of disconnect detection and of the context *)
(* ===================================================================== *)

Section Notification.
Import Srv.

Lemma new_Notifier_ok : Notifier_ok new_Notifier.
Proof. by split. Qed.

Lemma conn_closeNotify_ok st : Notifier_ok st → Notifier_ok (conn_closeNotify st).2.
Proof.
  intros Hok. unfold conn_closeNotify.
  destruct (closeNotifyc st) as [b|] eqn:Hc; [exact Hok|].
  destruct Hok as [H1 H2]. split; cbn; [|done].
  intros Hg. rewrite (H1 Hg) in Hc. done.
Qed.

Lemma conn_notifyClientGone_ok st :
  Notifier_ok st →
  (conn_notifyClientGone st).1 = Ret tt ∧ Notifier_ok (conn_notifyClientGone st).2.
Proof.
  intros [H1 H2]. unfold conn_notifyClientGone. case_decide as Hd; [|by split].
  destruct Hd as [Hc Hg]. destruct (closeNotifyc st) as [[|]|] eqn:Hch; cbn.
  - rewrite H2 in Hg; done.
  - by split.
  - done.
Qed.

Lemma copier_done_ok pipe err st :
  Notifier_ok st →
  (copier_done pipe err st).1 = Ret tt ∧ Notifier_ok (copier_done pipe err st).2.
Proof. intros Hok. unfold copier_done. by apply conn_notifyClientGone_ok. Qed.

Lemma run_op_ok op st :
  Notifier_ok st → (run_op op st).1 = Ret tt ∧ Notifier_ok (run_op op st).2.
Proof.
  intros Hok. destruct op as [| |pipe err]; cbn.
  - split; [done|by apply conn_closeNotify_ok].
  - by apply conn_notifyClientGone_ok.
  - by apply copier_done_ok.
Qed.

(** X24. The notification channel is closed at most once: whatever the
    history of calls to [closeNotify] and [notifyClientGone] and of copy
    tasks ending on a new connection, no call panics (closing a channel
    twice would), and at the end the channel is closed exactly when the
    client has been declared gone. *)
Theorem notifier_never_panics (ops : list NotifierOp) :
  (run_ops ops new_Notifier).1 = Ret tt
  ∧ (closeNotifyc (run_ops ops new_Notifier).2 = Some true
     ↔ clientGone (run_ops ops new_Notifier).2 = true).
Proof.
  assert (Hgen : ∀ st, Notifier_ok st →
    (run_ops ops st).1 = Ret tt ∧ Notifier_ok (run_ops ops st).2).
  { induction ops as [|op ops IH]; intros st Hok; [by split|].
    cbn [run_ops]. destruct (run_op_ok op st Hok) as [Hr Hok'].
    destruct (run_op op st) as [[[]|v] st']; [|done]. by apply IH. }
  destruct (Hgen new_Notifier new_Notifier_ok) as [Hr [H1 H2]].
  split; [done|]. by split.
Qed.

(** X25. [closeNotify] sets up the detection once: the first call
    allocates the channel, makes the buffered reader read from a new pipe
    and starts one copy task draining the previous source into it; a
    later call changes nothing and returns the same channel.  The channel
    it returns is never nil, and is open unless the client is gone. *)
Theorem conn_closeNotify_once (st : Notifier) :
  (conn_closeNotify st).1 ≠ None
  ∧ conn_closeNotify (conn_closeNotify st).2
    = ((conn_closeNotify st).1, (conn_closeNotify st).2)
  ∧ (closeNotifyc st = None →
       (conn_closeNotify st).1 = Some false
       ∧ sr_r (conn_closeNotify st).2 = FromPipe (length (copiers st))
       ∧ copiers (conn_closeNotify st).2
         = copiers st ++ [(length (copiers st), sr_r st)])
  ∧ (closeNotifyc st ≠ None → (conn_closeNotify st).2 = st).
Proof.
  unfold conn_closeNotify. destruct (closeNotifyc st) as [b|] eqn:Hc; cbn.
  - rewrite Hc. by repeat split.
  - by repeat split.
Qed.

(** X26. When the copy task ends, the peer is reported gone: once
    [closeNotify] has been called, the end of the copy closes the pipe
    with the error of the copy, or with [io.EOF] when the copy ended
    without one, closes the notification channel and sets the latch,
    without panicking, whether or not the client was already gone. *)
Theorem copier_done_notifies (pipe : nat) (err : option error) (st : Notifier) :
  Notifier_ok st → closeNotifyc st ≠ None →
  (copier_done pipe err st).1 = Ret tt
  ∧ closeNotifyc (copier_done pipe err st).2 = Some true
  ∧ clientGone (copier_done pipe err st).2 = true
  ∧ pipe_err (copier_done pipe err st).2 !! pipe
    = Some (match err with None => io_EOF | Some err => err end).
Proof.
  intros [H1 H2] Hc. unfold copier_done, conn_notifyClientGone.
  cbn [closeNotifyc clientGone sr_r copiers pipe_err].
  destruct (closeNotifyc st) as [[|]|], (clientGone st); try done;
    try (by specialize (H1 eq_refl)); try (by specialize (H2 eq_refl));
    case_decide as Hd; try (by destruct Hd); try (exfalso; by apply Hd);
    cbn; by rewrite lookup_insert_eq.
Qed.

Lemma copier_done_notifies_witness :
  closeNotifyc (copier_done 0 None (conn_closeNotify new_Notifier).2).2 = Some true
  ∧ pipe_err (copier_done 0 None (conn_closeNotify new_Notifier).2).2 !! 0%nat
    = Some io_EOF.
Proof.
  split.
  - refine (proj1 (proj2
      (copier_done_notifies 0 None (conn_closeNotify new_Notifier).2 _ _)));
      [by split|done].
  - refine (proj2 (proj2 (proj2
      (copier_done_notifies 0 None (conn_closeNotify new_Notifier).2 _ _))));
      [by split|done].
Defined.

(** X27. [Context] never returns nil and stores what it returns: the
    context it returns is the one last given to [SetContext], or the
    background context when none was given or when nil was given; that
    context is the one held afterwards, so that the next call returns it
    again; and [SetContext] holds exactly what it is given. *)
Theorem response_Context_never_nil (ctx new : option GoContext) :
  (response_Context ctx).1 ≠ None
  ∧ (response_Context ctx).2 = (response_Context ctx).1
  ∧ (response_Context ctx).1
    = Some (match ctx with None => context_Background | Some c => c end)
  ∧ response_Context (response_Context ctx).2
    = ((response_Context ctx).1, (response_Context ctx).2)
  ∧ response_SetContext new ctx = new
  ∧ (response_Context (response_SetContext new ctx)).1
    = Some (match new with None => context_Background | Some c => c end).
Proof. destruct ctx, new; by repeat split. Qed.

End Notification.
